(** * my-groupme-bot: the feature registry, the matchers and the dispatcher

    A shallow embedding of [src/index.js].  The module keeps an array of
    features, builds features out of patterns and slash commands, and on
    every inbound message runs the responders of the features whose check
    accepts it.

    JavaScript strings are lists of code units; a code unit is an [ascii],
    so the texts covered are those whose code units are below 256. *)

From Stdlib Require Import Ascii String NArith Lia.
From stdpp Require Import base list sorting strings gmap.

Local Open Scope char_scope.
Local Open Scope list_scope.

(** ** Strings *)

(** A string literal of the source, as the list of its code units. *)
Definition js (s : string) : list ascii := list_ascii_of_string s.

(** White space of [\s] and of [String.prototype.trim], below code unit 256:
    TAB, LF, VT, FF, CR, SP and NBSP. *)
Definition is_space (c : ascii) : bool :=
  match N_of_ascii c with
  | 9 | 10 | 11 | 12 | 13 | 32 | 160 => true
  | _ => false
  end%N.

Definition is_digit (c : ascii) : bool :=
  (48 <=? N_of_ascii c)%N && (N_of_ascii c <=? 57)%N.

Definition is_word (c : ascii) : bool :=
  is_digit c
  || ((65 <=? N_of_ascii c)%N && (N_of_ascii c <=? 90)%N)
  || ((97 <=? N_of_ascii c)%N && (N_of_ascii c <=? 122)%N)
  || Ascii.eqb c "_".

Definition is_line_terminator (c : ascii) : bool :=
  Ascii.eqb c "010" || Ascii.eqb c "013".

Fixpoint trim_start (s : list ascii) : list ascii :=
  match s with
  | [] => []
  | c :: s' => if is_space c then trim_start s' else s
  end.

(** [String.prototype.trim] *)
Definition trim (s : list ascii) : list ascii :=
  rev (trim_start (rev (trim_start s))).

(** [Array.prototype.join] on an array of strings *)
Fixpoint join (sep : list ascii) (xs : list (list ascii)) : list ascii :=
  match xs with
  | [] => []
  | [x] => x
  | x :: xs' => x ++ sep ++ join sep xs'
  end.

(** The characters of the class [[.?*+^$[\]\\(){}|-]] in [quote]. *)
Definition is_meta (c : ascii) : bool :=
  existsb (Ascii.eqb c) (js ".?*+^$[]\(){}|-").

(** [quote]: [str.replace(/[.?*+^$[\]\\(){}|-]/g, '\\$&')] puts a backslash
    before every character of the class. *)
Fixpoint quote (str : list ascii) : list ascii :=
  match str with
  | [] => []
  | c :: str' => if is_meta c then "\" :: c :: quote str' else c :: quote str'
  end.

(** [a < b] on strings: code units compared lexicographically. *)
Fixpoint str_lt (a b : list ascii) : bool :=
  match a, b with
  | _, [] => false
  | [], _ :: _ => true
  | x :: a', y :: b' =>
      if Ascii.eqb x y then str_lt a' b' else (N_of_ascii x <? N_of_ascii y)%N
  end.

(** ** Regular expressions

    The patterns the module builds with [new RegExp(source, 'g')], and the
    part of the pattern language they need: characters, escapes, [.], [^],
    [$], the classes [\s \d \w] and their complements, groups,
    alternatives and the greedy quantifiers [* + ?].  Captures are not
    recorded; character classes in brackets, braces, back references,
    look-around and lazy quantifiers are outside the model. *)

Inductive cls := Space | Digit | Word.

Inductive re :=
| Eps
| Chr (c : ascii)
| Dot
| Cls (neg : bool) (k : cls)
| Bol
| Eol
| Seq (a b : re)
| Alt (a b : re)
| Star (a : re)
| Grp (a : re).

Definition Plus (a : re) : re := Seq a (Star a).
Definition Opt (a : re) : re := Alt a Eps.

Inductive tok :=
| TAtom (a : re)
| TStar
| TPlus
| TQuest
| TOpen (capture : bool)
| TClose
| TBar.

(** The character after a backslash. *)
Definition escape (c : ascii) : option re :=
  if Ascii.eqb c "s" then Some (Cls false Space)
  else if Ascii.eqb c "S" then Some (Cls true Space)
  else if Ascii.eqb c "d" then Some (Cls false Digit)
  else if Ascii.eqb c "D" then Some (Cls true Digit)
  else if Ascii.eqb c "w" then Some (Cls false Word)
  else if Ascii.eqb c "W" then Some (Cls true Word)
  else if Ascii.eqb c "t" then Some (Chr "009")
  else if Ascii.eqb c "n" then Some (Chr "010")
  else if Ascii.eqb c "v" then Some (Chr "011")
  else if Ascii.eqb c "f" then Some (Chr "012")
  else if Ascii.eqb c "r" then Some (Chr "013")
  else if is_digit c || existsb (Ascii.eqb c) (js "bBcxukpP") then None
  else Some (Chr c).

(** A character that no backslash precedes. *)
Definition plain (c : ascii) : option tok :=
  if Ascii.eqb c "." then Some (TAtom Dot)
  else if Ascii.eqb c "^" then Some (TAtom Bol)
  else if Ascii.eqb c "$" then Some (TAtom Eol)
  else if Ascii.eqb c "*" then Some TStar
  else if Ascii.eqb c "+" then Some TPlus
  else if Ascii.eqb c "?" then Some TQuest
  else if Ascii.eqb c ")" then Some TClose
  else if Ascii.eqb c "|" then Some TBar
  else if existsb (Ascii.eqb c) (js "[]{}") then None
  else Some (TAtom (Chr c)).

Fixpoint lex (s : list ascii) : option (list tok) :=
  match s with
  | [] => Some []
  | c :: s' =>
      if Ascii.eqb c "\" then
        match s' with
        | [] => None
        | d :: s'' =>
            match escape d, lex s'' with
            | Some a, Some ts => Some (TAtom a :: ts)
            | _, _ => None
            end
        end
      else if Ascii.eqb c "(" then
        match s' with
        | q :: s'' =>
            if Ascii.eqb q "?" then
              match s'' with
              | k :: s3 =>
                  if Ascii.eqb k ":" then
                    match lex s3 with
                    | Some ts => Some (TOpen false :: ts)
                    | None => None
                    end
                  else None
              | [] => None
              end
            else
              match lex s' with
              | Some ts => Some (TOpen true :: ts)
              | None => None
              end
        | [] => Some [TOpen true]
        end
      else
        match plain c, lex s' with
        | Some t, Some ts => Some (t :: ts)
        | _, _ => None
        end
  end.

(** The parser keeps one frame per open group: the alternatives already
    closed, the atoms of the current one (latest first), and whether the
    latest atom may take a quantifier. *)
Record frame := Frame {
  alts : list re;
  cur : list re;
  quantifiable : bool;
  capturing : bool
}.

Definition mk_seq (atoms : list re) : re :=
  foldl (fun acc a => Seq a acc) Eps atoms.

Definition close (f : frame) : re :=
  foldl (fun acc a => Alt a acc) (mk_seq (cur f)) (alts f).

Definition push (a : re) (q : bool) (f : frame) : frame :=
  Frame (alts f) (a :: cur f) q (capturing f).

Definition quantify (q : re -> re) (f : frame) : option frame :=
  match cur f with
  | a :: atoms =>
      if quantifiable f then Some (Frame (alts f) (q a :: atoms) false (capturing f))
      else None
  | [] => None
  end.

Definition is_anchor (a : re) : bool :=
  match a with Bol | Eol => true | _ => false end.

Definition step (st : frame * list frame) (t : tok) : option (frame * list frame) :=
  let '(f, stack) := st in
  match t with
  | TAtom a => Some (push a (negb (is_anchor a)) f, stack)
  | TStar => match quantify Star f with Some f' => Some (f', stack) | None => None end
  | TPlus => match quantify Plus f with Some f' => Some (f', stack) | None => None end
  | TQuest => match quantify Opt f with Some f' => Some (f', stack) | None => None end
  | TOpen c => Some (Frame [] [] false c, f :: stack)
  | TClose =>
      match stack with
      | [] => None
      | g :: stack' =>
          Some (push (if capturing f then Grp (close f) else close f) true g, stack')
      end
  | TBar => Some (Frame (mk_seq (cur f) :: alts f) [] false (capturing f), stack)
  end.

Fixpoint run (st : frame * list frame) (ts : list tok) : option (frame * list frame) :=
  match ts with
  | [] => Some st
  | t :: ts' => match step st t with Some st' => run st' ts' | None => None end
  end.

(** The pattern of a source text; [None] when the source is not a pattern
    or is outside the modelled part of the language. *)
Definition parse (source : list ascii) : option re :=
  match lex source with
  | Some ts =>
      match run (Frame [] [] false false, []) ts with
      | Some (f, []) => Some (close f)
      | _ => None
      end
  | None => None
  end.

Definition in_cls (k : cls) (c : ascii) : bool :=
  match k with
  | Space => is_space c
  | Digit => is_digit c
  | Word => is_word c
  end.

(** The backtracking matcher: [mt text r k i] matches [r] at index [i] of
    [text] and hands the end index to the continuation [k]; alternatives
    are tried left to right and [Star] is greedy.  An iteration of [Star]
    that consumes nothing is rejected, so the number of iterations is at
    most the length of the text. *)
Fixpoint mt (text : list ascii) (r : re) (k : nat -> option nat) (i : nat) : option nat :=
  match r with
  | Eps => k i
  | Chr c =>
      match text !! i with
      | Some d => if Ascii.eqb d c then k (S i) else None
      | None => None
      end
  | Dot =>
      match text !! i with
      | Some d => if is_line_terminator d then None else k (S i)
      | None => None
      end
  | Cls neg cl =>
      match text !! i with
      | Some d => if xorb neg (in_cls cl d) then k (S i) else None
      | None => None
      end
  | Bol => if Nat.eqb i 0 then k i else None
  | Eol => if Nat.eqb i (length text) then k i else None
  | Seq a b => mt text a (mt text b k) i
  | Alt a b =>
      match mt text a k i with
      | Some e => Some e
      | None => mt text b k i
      end
  | Star a =>
      (fix loop (n : nat) (i : nat) : option nat :=
         match n with
         | O => k i
         | S n' =>
             match mt text a (fun j => if Nat.ltb i j then loop n' j else None) i with
             | Some e => Some e
             | None => k i
             end
         end) (S (length text)) i
  | Grp a => mt text a k i
  end.

(** The first match that starts at [i] or, failing that, at one of the [n]
    indices after it: its start and end. *)
Fixpoint search (text : list ascii) (r : re) (n : nat) (i : nat) : option (nat * nat) :=
  match mt text r Some i with
  | Some e => Some (i, e)
  | None =>
      match n with
      | O => None
      | S n' => search text r n' (S i)
      end
  end.

(** [RegExpBuiltinExec] of a global pattern whose [lastIndex] is [li]. *)
Definition exec (text : list ascii) (r : re) (li : nat) : option (nat * nat) :=
  if Nat.ltb (length text) li then None
  else search text r (length text - li) li.

(** The matches that [String.prototype.match] and
    [String.prototype.replace] collect for a global pattern: [exec] is
    repeated from [lastIndex = 0], and an empty match moves [lastIndex] on
    by one. *)
Fixpoint exec_all (text : list ascii) (r : re) (fuel : nat) (li : nat) : list (nat * nat) :=
  match fuel with
  | O => []
  | S fuel' =>
      match exec text r li with
      | None => []
      | Some (i, e) => (i, e) :: exec_all text r fuel' (if Nat.eqb e i then S e else e)
      end
  end.

Definition matches (text : list ascii) (r : re) : list (nat * nat) :=
  exec_all text r (S (S (length text))) 0.

Definition substring (text : list ascii) (i e : nat) : list ascii :=
  take (e - i) (drop i text).

(** [text.replace(r, '')] for a global [r]: the text without its matches. *)
Fixpoint remove_matches (text : list ascii) (ms : list (nat * nat)) (next : nat) : list ascii :=
  match ms with
  | [] => drop next text
  | (i, e) :: ms' =>
      if Nat.leb next i then substring text next i ++ remove_matches text ms' e
      else remove_matches text ms' next
  end.

Definition replace_all (text : list ascii) (r : re) : list ascii :=
  remove_matches text (matches text r) 0.

Fixpoint has_group (r : re) : bool :=
  match r with
  | Grp _ => true
  | Seq a b | Alt a b => has_group a || has_group b
  | Star a => has_group a
  | _ => false
  end.

(** The loop of [RegExp.prototype[Symbol.split]] on a text that is not
    empty: [p] is where the current piece starts, [q] where the separator
    is tried next. *)
Fixpoint split_loop (text : list ascii) (r : re) (fuel p q : nat) : list (list ascii) :=
  match fuel with
  | O => [drop p text]
  | S fuel' =>
      if Nat.ltb q (length text) then
        match mt text r Some q with
        | None => split_loop text r fuel' p (S q)
        | Some e0 =>
            let e := Nat.min e0 (length text) in
            if Nat.eqb e p then split_loop text r fuel' p (S q)
            else substring text p q :: split_loop text r fuel' e e
        end
      else [drop p text]
  end.

(** [text.split(r)]; a separator with capture groups would add the
    captures to the pieces, which is outside the model. *)
Definition split (text : list ascii) (r : re) : option (list (list ascii)) :=
  if has_group r then None
  else
    match text with
    | [] =>
        match mt text r Some 0 with
        | Some _ => Some []
        | None => Some [[]]
        end
    | _ :: _ => Some (split_loop text r (S (2 * length text)) 0 0)
    end.

(** ** Values, outcomes and the state of the module *)

(** An inbound message: the two fields the module reads. *)
Record Message := { sender_type : list ascii; text : list ascii }.

(** A [RegExp] object: its pattern, its [g] flag and the cell that holds
    its [lastIndex].  The other flags are outside the model. *)
Record RegExp := { pat : re; global : bool; cell : nat }.

Inductive data :=
| Undefined
| Null
| Bool (b : bool)
| Str (s : list ascii)
| Arr (xs : list (list ascii))
| Obj (m : Message)
| Rx (x : RegExp).

Inductive exn :=
| TypeError
| ErrorObj (message : list ascii).

(** What a computation on a state [S] leaves: a value, an exception, or a
    behaviour that the model does not cover. *)
Inductive result (S A : Type) :=
| Ret (a : A) (s : S)
| Throw (e : exn) (s : S)
| Unmodelled.
Arguments Ret {S A} a s.
Arguments Throw {S A} e s.
Arguments Unmodelled {S A}.

Definition M (S A : Type) : Type := S -> result S A.

Definition ret {S A} (a : A) : M S A := fun s => Ret a s.
Definition throw {S A} (e : exn) : M S A := fun s => Throw e s.
Definition unmodelled {S A} : M S A := fun _ => Unmodelled.
Definition bind {S A B} (m : M S A) (k : A -> M S B) : M S B :=
  fun s =>
    match m s with
    | Ret a s' => k a s'
    | Throw e s' => Throw e s'
    | Unmodelled => Unmodelled
    end.

Notation "x <- m ;; k" := (bind m (fun x => k))
  (at level 20, m at level 99, k at level 200, only parsing).
Notation "' p <- m ;; k" := (bind m (fun x => match x with p => k end))
  (at level 20, p pattern, m at level 99, k at level 200, only parsing).

(** A request handed to the transport by [send]. *)
Record Post := {
  bot_id : option (list ascii);
  post_text : list ascii;
  picture_url : option (list ascii)
}.

Section Module.

(** The state of the callbacks that the user of the module registers. *)
Variable U : Type.

(** What the callbacks can reach: [botId], the [lastIndex] of every
    [RegExp] object, the requests sent, the outcomes of [Math.random] still
    to come, and their own state. *)
Record World := {
  botId : option (list ascii);
  lastIndex : list nat;
  outbox : list Post;
  dice : list nat;
  user : U
}.

Definition set_botId (id : option (list ascii)) (w : World) : World :=
  {| botId := id; lastIndex := lastIndex w; outbox := outbox w;
     dice := dice w; user := user w |}.
Definition set_lastIndex (l : list nat) (w : World) : World :=
  {| botId := botId w; lastIndex := l; outbox := outbox w;
     dice := dice w; user := user w |}.
Definition set_outbox (o : list Post) (w : World) : World :=
  {| botId := botId w; lastIndex := lastIndex w; outbox := o;
     dice := dice w; user := user w |}.
Definition set_dice (d : list nat) (w : World) : World :=
  {| botId := botId w; lastIndex := lastIndex w; outbox := outbox w;
     dice := d; user := user w |}.
Definition set_user (u : U) (w : World) : World :=
  {| botId := botId w; lastIndex := lastIndex w; outbox := outbox w;
     dice := dice w; user := u |}.

(** A function of the program: it is called with arguments, can read the
    descriptions of the registered features (the closure of [help] does)
    and acts on the world.  A callback that registers features while a
    message is dispatched is outside the model. *)
Definition Fn : Type := list (list ascii) -> list data -> M World data.

Inductive val :=
| VData (d : data)
| VFun (f : Fn).

(** [v == null] *)
Definition nullish (v : val) : bool :=
  match v with
  | VData Undefined | VData Null => true
  | _ => false
  end.

(** [ToBoolean] *)
Definition truthy (d : data) : bool :=
  match d with
  | Undefined | Null => false
  | Bool b => b
  | Str s => negb (Nat.eqb (length s) 0)
  | Arr _ | Obj _ | Rx _ => true
  end.

Definition truthy_val (v : val) : bool :=
  match v with
  | VData d => truthy d
  | VFun _ => true
  end.

(** A call [f(args)]: a [TypeError] when [f] is not a function. *)
Definition call (f : val) (env : list (list ascii)) (args : list data) : M World data :=
  match f with
  | VFun g => g env args
  | VData _ => throw TypeError
  end.

(** *** RegExp objects *)

Definition get_lastIndex (x : RegExp) (w : World) : nat :=
  default 0 (lastIndex w !! cell x).

Definition put_lastIndex (x : RegExp) (i : nat) (w : World) : World :=
  set_lastIndex (<[cell x := i]> (lastIndex w)) w.

(** A new [RegExp] object with [lastIndex = 0]. *)
Definition alloc (r : re) (g : bool) : M World RegExp :=
  fun w =>
    Ret {| pat := r; global := g; cell := length (lastIndex w) |}
        (set_lastIndex (lastIndex w ++ [0]) w).

(** [ToString] of the first argument of [new RegExp]. *)
Definition source_of (v : val) : option (list ascii) :=
  match v with
  | VData Undefined => Some []
  | VData Null => Some (js "null")
  | VData (Bool true) => Some (js "true")
  | VData (Bool false) => Some (js "false")
  | VData (Str s) => Some s
  | VData (Arr xs) => Some (join (js ",") xs)
  | VData (Obj _) => Some (js "[object Object]")
  | VData (Rx _) | VFun _ => None
  end.

(** [new RegExp(v, 'g')] *)
Definition new_RegExp (v : val) : M World RegExp :=
  match v with
  | VData (Rx x) => alloc (pat x) true
  | _ =>
      match source_of v with
      | Some s =>
          match parse s with
          | Some r => alloc r true
          | None => unmodelled
          end
      | None => unmodelled
      end
  end.

(** [x.test(s)] *)
Definition test (x : RegExp) (s : list ascii) : M World bool :=
  fun w =>
    if global x then
      match exec s (pat x) (get_lastIndex x w) with
      | Some (_, e) => Ret true (put_lastIndex x e w)
      | None => Ret false (put_lastIndex x 0 w)
      end
    else
      match exec s (pat x) 0 with
      | Some _ => Ret true w
      | None => Ret false w
      end.

(** [s.match(x)] *)
Definition str_match (s : list ascii) (x : RegExp) : M World data :=
  fun w =>
    if global x then
      match matches s (pat x) with
      | [] => Ret Null (put_lastIndex x 0 w)
      | ms => Ret (Arr (map (fun m => substring s (fst m) (snd m)) ms))
                  (put_lastIndex x 0 w)
      end
    else if has_group (pat x) then Unmodelled
    else
      match exec s (pat x) 0 with
      | Some (i, e) => Ret (Arr [substring s i e]) w
      | None => Ret Null w
      end.

(** [s.replace(x, '')] *)
Definition str_replace (s : list ascii) (x : RegExp) : M World (list ascii) :=
  fun w =>
    if global x then Ret (replace_all s (pat x)) (put_lastIndex x 0 w)
    else
      match exec s (pat x) 0 with
      | Some (i, e) => Ret (take i s ++ drop e s) w
      | None => Ret s w
      end.

(** [s.split(x)]: the splitter is a copy of [x], whose [lastIndex] stays. *)
Definition str_split (s : list ascii) (x : RegExp) : M World data :=
  match split s (pat x) with
  | Some xs => ret (Arr xs)
  | None => unmodelled
  end.

(** [v.trim()] *)
Definition trim_of (v : val) : M World (list ascii) :=
  match v with
  | VData (Str s) => ret (trim s)
  | _ => throw TypeError
  end.

(** *** The module *)

Record Feature := { desc : list ascii; check : val; respond : val }.

(** The [features] array and the world. *)
Record Sys := { features : list Feature; world : World }.

Definition in_world {A} (m : M World A) : M Sys A :=
  fun s =>
    match m (world s) with
    | Ret a w => Ret a {| features := features s; world := w |}
    | Throw e w => Throw e {| features := features s; world := w |}
    | Unmodelled => Unmodelled
    end.

(** [config] *)
Definition config (id : list ascii) : M Sys unit :=
  in_world (fun w => Ret tt (set_botId (Some id) w)).

(** [send], up to the request handed to the transport. *)
Definition send (message imageUrl : data) : M World data :=
  fun w =>
    match message with
    | Str s =>
        Ret Undefined
          (set_outbox
             (outbox w ++
                [{| bot_id := botId w; post_text := trim s;
                    picture_url := match imageUrl with Str u => Some u | _ => None end |}])
             w)
    | _ => Throw TypeError w
    end.

(** [feature]; a description that is not a string is outside the model. *)
Definition feature (desc check respond : val) : M Sys unit :=
  let '(desc, check, respond) :=
    if nullish respond then (VData (Str []), desc, check)
    else (desc, check, respond) in
  fun s =>
    match desc with
    | VData (Str d) =>
        Ret tt {| features := features s ++
                    [{| desc := d; check := check; respond := respond |}];
                  world := world s |}
    | _ => Unmodelled
    end.

(** [message => pattern.test(message['text'])] *)
Definition pattern_check (pattern : val) : Fn :=
  fun _ args =>
    match args with
    | Obj message :: _ =>
        match pattern with
        | VData (Rx x) => b <- test x (text message) ;; ret (Bool b)
        | _ => throw TypeError
        end
    | _ => unmodelled
    end.

(** [message => respond(message, message['text'].match(pattern))] *)
Definition pattern_respond (pattern respond : val) : Fn :=
  fun env args =>
    match args with
    | Obj message :: _ =>
        match pattern with
        | VData (Rx x) =>
            ms <- str_match (text message) x ;;
            call respond env [Obj message; ms]
        | _ => unmodelled
        end
    | _ => unmodelled
    end.

(** [pattern] *)
Definition pattern (desc pattern respond : val) : M Sys unit :=
  let '(desc, pattern, respond) :=
    if nullish respond then (VData (Str []), desc, pattern)
    else (desc, pattern, respond) in
  pattern <-
    match pattern with
    | VData (Str s) =>
        x <- in_world (new_RegExp (VData (Str (quote s)))) ;;
        ret (VData (Rx x))
    | _ => ret pattern
    end ;;
  feature desc (VFun (pattern_check pattern)) (VFun (pattern_respond pattern respond)).

(** [message => respond(message,
      message['text'].replace(regex, '').trim().split(sep))] *)
Definition command_respond (regex sep : RegExp) (respond : val) : Fn :=
  fun env args =>
    match args with
    | Obj message :: _ =>
        rest <- str_replace (text message) regex ;;
        parts <- str_split (trim rest) sep ;;
        call respond env [Obj message; parts]
    | _ => unmodelled
    end.

(** The literal [/\s+/]. *)
Definition ws_plus : re := Plus (Cls false Space).

(** [command] *)
Definition command (name : list ascii) (desc sep respond : val) : M Sys unit :=
  '(desc, sep, respond) <-
    in_world
      (if nullish respond then
         if nullish sep then ret ([], sep, desc)
         else
           ws <- alloc ws_plus false ;;
           d <- trim_of desc ;;
           ret (js " - " ++ d, VData (Rx ws), sep)
       else
         d <- trim_of desc ;;
         ret (js " - " ++ d, sep, respond)) ;;
  sep <-
    in_world
      (new_RegExp match sep with
                  | VData (Str s) => VData (Str (quote s))
                  | _ => sep
                  end) ;;
  regex <-
    in_world (new_RegExp (VData (Str (js "^/" ++ quote name ++ js "(\s|$)")))) ;;
  pattern (VData (Str (js "/" ++ name ++ desc))) (VData (Rx regex))
          (VFun (command_respond regex sep respond)).

(** [Math.floor(Math.random() * n)]: the next outcome, brought below [n];
    when the outcomes run out the index is 0. *)
Definition random_index (n : nat) : M World nat :=
  fun w =>
    match dice w with
    | [] => Ret 0 w
    | d :: ds => Ret (if Nat.eqb n 0 then 0 else d mod n) (set_dice ds w)
    end.

(** [() => module.exports.send(Array.isArray(supply)
      ? supply[Math.floor(Math.random() * supply.length)] : supply())] *)
Definition random_respond (supply : val) : Fn :=
  fun env _ =>
    x <-
      match supply with
      | VData (Arr xs) =>
          i <- random_index (length xs) ;;
          ret (match xs !! i with Some s => Str s | None => Undefined end)
      | _ => call supply env []
      end ;;
    send x Undefined.

(** [random] *)
Definition random (name : list ascii) (desc supply : val) : M Sys unit :=
  let '(desc, supply) :=
    if nullish supply then (VData Undefined, desc) else (desc, supply) in
  command name desc (VFun (random_respond supply)) (VData Undefined).

(** [() => module.exports.send(features.map(feature => feature.desc)
      .filter(desc => desc !== '').join('\n'))] *)
Definition help_respond : Fn :=
  fun env _ =>
    send (Str (join ["010"] (filter (fun d => d <> []) env))) Undefined.

(** [help] *)
Definition help : M Sys unit :=
  command (js "help") (VData (Str (js "Displays help information about the bot.")))
          (VFun help_respond) (VData Undefined).

(** The stable sort of [features.sort((a, b) =>
      a.desc < b.desc ? -1 : a.desc > b.desc ? 1 : 0)]. *)
Fixpoint insert_feature (x : Feature) (l : list Feature) : list Feature :=
  match l with
  | [] => [x]
  | y :: l' =>
      if str_lt (desc y) (desc x) then y :: insert_feature x l'
      else x :: l
  end.

Definition sort_features (l : list Feature) : list Feature :=
  foldr insert_feature [] l.

(** [listen], up to the start of the server. *)
Definition listen : M Sys unit :=
  fun s => Ret tt {| features := sort_features (features s); world := world s |}.

(** *** The dispatch handler of [server] *)

(** [feature => feature.check && feature.check(message)] *)
Definition matches_feature (env : list (list ascii)) (message : Message)
    (f : Feature) : M World bool :=
  if truthy_val (check f) then
    v <- call (check f) env [Obj message] ;;
    ret (truthy v)
  else ret false.

(** [features.filter(...)], every feature paired with its index. *)
Fixpoint filter_features (env : list (list ascii)) (message : Message)
    (fs : list (nat * Feature)) : M World (list (nat * Feature)) :=
  match fs with
  | [] => ret []
  | f :: fs' =>
      keep <- matches_feature env message (snd f) ;;
      rest <- filter_features env message fs' ;;
      ret (if keep then f :: rest else rest)
  end.

(** [.forEach(feature => feature.respond(message))]; beside the outcome,
    the indices of the features whose responder was called, in the order
    of the calls. *)
Fixpoint forEach_respond (env : list (list ascii)) (message : Message)
    (fs : list (nat * Feature)) (w : World) : list nat * result World unit :=
  match fs with
  | [] => ([], Ret tt w)
  | f :: fs' =>
      match respond (snd f) with
      | VFun g =>
          match g env [Obj message] w with
          | Ret _ w' =>
              let '(called, r) := forEach_respond env message fs' w' in
              (fst f :: called, r)
          | Throw e w' => ([fst f], Throw e w')
          | Unmodelled => ([fst f], Unmodelled)
          end
      | VData _ => ([], Throw TypeError w)
      end
  end.

Fixpoint indexed_from (i : nat) (fs : list Feature) : list (nat * Feature) :=
  match fs with
  | [] => []
  | f :: fs' => (i, f) :: indexed_from (S i) fs'
  end.

Definition indexed (fs : list Feature) : list (nat * Feature) :=
  indexed_from 0 fs.

(** The handler, from the parsed message on. *)
Definition server (message : Message) (s : Sys) : list nat * result World unit :=
  if decide (sender_type message = js "user") then
    let env := map desc (features s) in
    match filter_features env message (indexed (features s)) (world s) with
    | Ret ms w => forEach_respond env message ms w
    | Throw e w => ([], Throw e w)
    | Unmodelled => ([], Unmodelled)
    end
  else ([], Ret tt (world s)).

End Module.

Arguments botId {U}.
Arguments lastIndex {U}.
Arguments outbox {U}.
Arguments dice {U}.
Arguments user {U}.
Arguments Build_World {U}.
Arguments VData {U}.
Arguments VFun {U}.
Arguments desc {U}.
Arguments check {U}.
Arguments respond {U}.
Arguments Build_Feature {U}.
Arguments features {U}.
Arguments world {U}.
Arguments Build_Sys {U}.
Arguments set_botId {U}.
Arguments set_lastIndex {U}.
Arguments set_outbox {U}.
Arguments set_dice {U}.
Arguments set_user {U}.
Arguments nullish {U}.
Arguments truthy_val {U}.
Arguments call {U}.
Arguments get_lastIndex {U}.
Arguments put_lastIndex {U}.
Arguments alloc {U}.
Arguments source_of {U}.
Arguments new_RegExp {U}.
Arguments test {U}.
Arguments str_match {U}.
Arguments str_replace {U}.
Arguments str_split {U}.
Arguments trim_of {U}.
Arguments in_world {U A}.
Arguments config {U}.
Arguments send {U}.
Arguments feature {U}.
Arguments pattern_check {U}.
Arguments pattern_respond {U}.
Arguments pattern {U}.
Arguments command_respond {U}.
Arguments command {U}.
Arguments random_index {U}.
Arguments random_respond {U}.
Arguments random {U}.
Arguments help_respond {U}.
Arguments help {U}.
Arguments insert_feature {U}.
Arguments sort_features {U}.
Arguments listen {U}.
Arguments matches_feature {U}.
Arguments filter_features {U}.
Arguments forEach_respond {U}.
Arguments indexed_from {U}.
Arguments indexed {U}.
Arguments server {U}.

(** *** Plugins *)

Section Plugins.

(** The function of a plugin; [use] wraps it and never calls it. *)
Variable Body : Type.

Record Plugin := { name : list ascii; fn : Body }.

(** An own property of [module.exports]: an entry point of the module, or
    the wrapper that [use] made around the function of a plugin. *)
Inductive Member :=
| Builtin
| Wrapper (fn : Body).

(** [module.exports] as the module leaves it when it is loaded. *)
Definition module_exports : gmap (list ascii) Member :=
  list_to_map
    (map (fun k => (js k, Builtin))
       ["config"; "send"; "feature"; "pattern"; "command"; "random"; "help";
        "listen"; "use"]%string).

(** [module.exports.hasOwnProperty(k)].  A plugin named [hasOwnProperty]
    hides the method of [Object.prototype]: the call then runs the function
    of that plugin, which the model does not follow. *)
Definition hasOwnProperty (k : list ascii) : M (gmap (list ascii) Member) bool :=
  fun api =>
    match api !! js "hasOwnProperty" with
    | Some _ => Unmodelled
    | None => Ret (bool_decide (is_Some (api !! k))) api
    end.

(** [module.exports[k] = v].  The key [__proto__] is the accessor of
    [Object.prototype]: the assignment changes the prototype and makes no
    own property. *)
Definition assign (k : list ascii) (v : Member)
    (api : gmap (list ascii) Member) : gmap (list ascii) Member :=
  if decide (k = js "__proto__") then api else <[k := v]> api.

(** [use]: the body of [plugins.forEach], one plugin after the other. *)
Fixpoint use (plugins : list Plugin) : M (gmap (list ascii) Member) unit :=
  match plugins with
  | [] => ret tt
  | plugin :: rest =>
      dup <- hasOwnProperty (name plugin) ;;
      if (dup : bool) then
        throw (ErrorObj (js "Duplicate plugin name '" ++ name plugin ++ js "'!"))
      else
        _ <- (fun api => Ret tt (assign (name plugin) (Wrapper (fn plugin)) api)) ;;
        use rest
  end.

End Plugins.

Arguments name {Body}.
Arguments fn {Body}.
Arguments Build_Plugin {Body}.
Arguments Builtin {Body}.
Arguments Wrapper {Body}.
Arguments module_exports {Body}.
Arguments hasOwnProperty {Body}.
Arguments assign {Body}.
Arguments use {Body}.

(** *** The transport of [send] and the listener *)

Section Transport.

Variable U : Type.

(** What [request] hands to its callback: an error of the network, or the
    status code and the body of the answer. *)
Inductive reply :=
| Failed (err : exn)
| Answered (statusCode : nat) (body : list ascii).

(** The second and the third argument of [send]: a value, or a callback,
    which is called with an error or with nothing. *)
Inductive sarg :=
| SData (d : data)
| SCallback (f : option exn -> M (World U) unit).

Definition nullish_arg (a : sarg) : bool :=
  match a with
  | SData Undefined | SData Null => true
  | _ => false
  end.

Definition truthy_arg (a : sarg) : bool :=
  match a with
  | SData d => truthy d
  | SCallback _ => true
  end.

(** [send] with its callback, up to the call of [request]: the request is
    handed to the transport, and the result is the callback that the
    transport keeps. *)
Definition send_request (message : data) (imageUrl cb : sarg) : M (World U) sarg :=
  fun w =>
    match message with
    | Str s =>
        Ret (match imageUrl with
             | SData (Str _) => cb
             | _ => if nullish_arg cb then imageUrl else cb
             end)
            (set_outbox
               (outbox w ++
                  [{| bot_id := botId w; post_text := trim s;
                      picture_url :=
                        match imageUrl with SData (Str u) => Some u | _ => None end |}])
               w)
    | _ => Throw TypeError w
    end.

(** [cb(arg)] *)
Definition invoke (cb : sarg) (arg : option exn) : M (World U) unit :=
  match cb with
  | SCallback f => f arg
  | SData _ => throw TypeError
  end.

(** The callback that [send] gives to [request]. *)
Definition on_reply (cb : sarg) (r : reply) : M (World U) unit :=
  if truthy_arg cb then
    match r with
    | Failed err => invoke cb (Some err)
    | Answered statusCode body =>
        if Nat.eqb statusCode 202 then invoke cb None
        else invoke cb (Some (ErrorObj body))
    end
  else ret tt.

(** What the listener writes to the response. *)
Record Response := { status : nat; answer : list ascii }.

(** The listener of [server] at the end of a request, the body taken as
    parsed: the response, then the dispatch. *)
Definition on_request (method : list ascii) (message : Message) (s : Sys U)
    : Response * (list nat * result (World U) unit) :=
  if decide (method = js "POST") then
    ({| status := 200; answer := js "OK" |}, server message s)
  else
    ({| status := 400; answer := js "Invalid request method!" |},
     ([], Ret tt (world s))).

End Transport.

Arguments SData {U}.
Arguments SCallback {U}.
Arguments nullish_arg {U}.
Arguments truthy_arg {U}.
Arguments send_request {U}.
Arguments invoke {U}.
Arguments on_reply {U}.
Arguments on_request {U}.

(** * The vocabulary of the properties *)

(** The pattern of a literal: its characters in a row, then [t]. *)
Definition lits (p : list ascii) (t : re) : re :=
  foldr (fun c r => Seq (Chr c) r) t p.

(** The pattern of [^/<name>(\s|$)]. *)
Definition command_re (name : list ascii) : re :=
  Seq Bol (Seq (Chr "/")
    (lits name (Seq (Grp (Alt (Seq (Cls false Space) Eps) (Seq Eol Eps))) Eps))).

(** The frame of the parser once the characters of [s] are read. *)
Definition push_chars (s : list ascii) (f : frame) : frame :=
  foldl (fun f c => push (Chr c) true f) f s.

(** Where the match of [^/<name>(\s|$)] at the start of [text] ends. *)
Definition command_end (name text : list ascii) : option nat :=
  if decide (take (S (length name)) text = "/" :: name) then
    match text !! S (length name) with
    | Some d => if is_space d then Some (S (S (length name))) else None
    | None => Some (S (length name))
    end
  else None.

(** The text begins with [/<name>], and white space or nothing follows. *)
Definition begins_with_command (name text : list ascii) : Prop :=
  exists rest,
    text = "/" :: name ++ rest /\
    (rest = [] \/ exists c rest', rest = c :: rest' /\ is_space c = true).

(** The pieces between the runs of white space of a text: [cur] is the
    piece being read, [gap] says that the last character was white. *)
Fixpoint fields (gap : bool) (cur s : list ascii) : list (list ascii) :=
  match s with
  | [] => [cur]
  | c :: s' =>
      if is_space c then
        if gap then fields true [] s' else cur :: fields true [] s'
      else fields false (cur ++ [c]) s'
  end.

Definition words (s : list ascii) : list (list ascii) := fields false [] s.

(** The pieces between the occurrences of a literal [sep], found from left
    to right: [cur] is the piece being read, and [skip] characters of the
    occurrence just found are still to pass. *)
Fixpoint split_on (sep : list ascii) (skip : nat) (cur s : list ascii)
    : list (list ascii) :=
  match s with
  | [] => [cur]
  | c :: s' =>
      match skip with
      | S k => split_on sep k cur s'
      | O =>
          if decide (take (length sep) s = sep)
          then cur :: split_on sep (length sep - 1) [] s'
          else split_on sep 0 (cur ++ [c]) s'
      end
  end.

(** The separator of a command that is registered with a description:
    left out, or a string. *)
Inductive separator :=
| Default
| Literal (sep : list ascii).

Definition separator_re (sp : separator) : re :=
  match sp with
  | Default => Plus (Cls false Space)
  | Literal sep => lits sep Eps
  end.

(** The pieces into which the separator cuts a text. *)
Definition pieces (sp : separator) (t : list ascii) : list (list ascii) :=
  match sp with
  | Default => words t
  | Literal [] => map (fun c => [c]) t
  | Literal sep => split_on sep 0 [] t
  end.

(** The length of the run of white space at the head of [s]. *)
Fixpoint ws_prefix (s : list ascii) : nat :=
  match s with
  | c :: s' => if is_space c then S (ws_prefix s') else 0
  | [] => 0
  end.

(** The loop of [Star] in [mt], for the class of white space. *)
Definition ws_loop (text : list ascii) : nat -> nat -> option nat :=
  fix loop (n i : nat) : option nat :=
    match n with
    | O => Some i
    | S n' =>
        match mt text (Cls false Space)
                (fun j => if Nat.ltb i j then loop n' j else None) i with
        | Some e => Some e
        | None => Some i
        end
    end.

(** [p] occurs in [text]. *)
Definition occurs (p text : list ascii) : Prop :=
  exists pre post, text = pre ++ p ++ post.

Section Vocabulary.
Context {U : Type}.

(** The feature of a literal pattern. *)
Definition literal_feature (d p : list ascii) (rsp : val U) (c : nat) : Feature U :=
  let x := {| pat := lits p Eps; global := true; cell := c |} in
  {| desc := d;
     check := VFun (pattern_check (VData (Rx x)));
     respond := VFun (pattern_respond (VData (Rx x)) rsp) |}.

(** The feature of a command: [c] is the cell of its pattern. *)
Definition command_feature (name d : list ascii) (sep : RegExp) (rsp : val U)
    (c : nat) : Feature U :=
  let regex := {| pat := command_re name; global := true; cell := c |} in
  {| desc := js "/" ++ name ++ d;
     check := VFun (pattern_check (VData (Rx regex)));
     respond := VFun (pattern_respond (VData (Rx regex))
                        (VFun (command_respond regex sep rsp))) |}.

(** [command(name, desc, respond)] and [command(name, desc, sep, respond)] *)
Definition command_with (name d : list ascii) (sp : separator) (rsp : Fn U)
    : M (Sys U) unit :=
  match sp with
  | Default => command name (VData (Str d)) (VFun rsp) (VData Undefined)
  | Literal sep => command name (VData (Str d)) (VData (Str sep)) (VFun rsp)
  end.

(** The world after [n] more [RegExp] objects were made. *)
Definition grow (n : nat) (w : World U) : World U :=
  Nat.iter n (fun w => set_lastIndex (lastIndex w ++ [0]) w) w.

(** The [RegExp] object of a command whose pattern is in cell [c]. *)
Definition command_regex (name : list ascii) (c : nat) : RegExp :=
  {| pat := command_re name; global := true; cell := c |}.

(** The checks of [fs], run in turn from [w], return the flags [bs] and
    leave [w']; a check that is not set is not called. *)
Inductive checked (env : list (list ascii)) (m : Message) :
    list (Feature U) -> World U -> list bool -> World U -> Prop :=
| checked_nil w : checked env m [] w [] w
| checked_skip f fs w bs w' :
    truthy_val (check f) = false ->
    checked env m fs w bs w' ->
    checked env m (f :: fs) w (false :: bs) w'
| checked_call f fs w v w1 bs w' :
    truthy_val (check f) = true ->
    call (check f) env [Obj m] w = Ret v w1 ->
    checked env m fs w1 bs w' ->
    checked env m (f :: fs) w (truthy v :: bs) w'.

(** The responders of [fs], called in turn from [w], all return and leave
    [w']. *)
Inductive responded (env : list (list ascii)) (m : Message) :
    list (Feature U) -> World U -> World U -> Prop :=
| responded_nil w : responded env m [] w w
| responded_cons f fs g v w w1 w' :
    respond f = VFun g ->
    g env [Obj m] w = Ret v w1 ->
    responded env m fs w1 w' ->
    responded env m (f :: fs) w w'.

(** The elements of [l] whose flag is set. *)
Fixpoint selected {A} (bs : list bool) (l : list A) : list A :=
  match bs, l with
  | b :: bs', x :: l' => if b then x :: selected bs' l' else selected bs' l'
  | _, _ => []
  end.

(** [feature('b', c1, r1).feature('', c2, r2).feature('a', c3, r3)
      .help().listen()] *)
Definition with_help (c1 r1 c2 r2 c3 r3 : val U) : M (Sys U) unit :=
  _ <- feature (VData (Str (js "b"))) c1 r1 ;;
  _ <- feature (VData (Str [])) c2 r2 ;;
  _ <- feature (VData (Str (js "a"))) c3 r3 ;;
  _ <- help ;;
  listen.

(** The world and the registry when the module is loaded. *)
Definition initial_world (u : U) : World U :=
  {| botId := None; lastIndex := []; outbox := []; dice := []; user := u |}.

Definition initial (u : U) : Sys U := {| features := []; world := initial_world u |}.

End Vocabulary.

(** The public interface once the plugins [ps] are installed in [api]. *)
Definition installed {Body} (ps : list (Plugin Body))
    (api : gmap (list ascii) (Member Body)) : gmap (list ascii) (Member Body) :=
  foldl (fun a p => assign (name p) (Wrapper (fn p)) a) api ps.

(** A message of a user. *)
Definition from_user (t : string) : Message :=
  {| sender_type := js "user"; text := js t |}.

(** The description under which [help] registers itself. *)
Definition help_line : list ascii :=
  js "/help - Displays help information about the bot.".

(** A check that accepts every message, a responder that throws on its
    first call only (it makes the count odd), and one that counts its
    calls by tens. *)
Definition always : Fn nat := fun _ _ w => Ret (Bool true) w.

Definition throws_once : Fn nat :=
  fun _ _ w =>
    if Nat.even (user w)
    then Throw (ErrorObj (js "boom")) (set_user (S (user w)) w)
    else Ret Undefined w.

Definition counts : Fn nat :=
  fun _ _ w => Ret Undefined (set_user (10 + user w) w).

(** [feature(always, throws_once).pattern('a.b', counts)] *)
Definition thrower_then_literal : M (Sys nat) unit :=
  _ <- feature (VFun always) (VFun throws_once) (VData Undefined) ;;
  pattern (VData (Str (js "a.b"))) (VFun counts) (VData Undefined).

(** [feature(always, counts).feature(always, throws_once)
      .feature(always, counts)] *)
Definition counter_thrower_counter : M (Sys nat) unit :=
  _ <- feature (VFun always) (VFun counts) (VData Undefined) ;;
  _ <- feature (VFun always) (VFun throws_once) (VData Undefined) ;;
  feature (VFun always) (VFun counts) (VData Undefined).

(** [feature(always, counts).feature('off', null, counts)
      .feature(always, counts)] *)
Definition on_off_on : M (Sys nat) unit :=
  _ <- feature (VFun always) (VFun counts) (VData Undefined) ;;
  _ <- feature (VData (Str (js "off"))) (VData Null) (VFun counts) ;;
  feature (VFun always) (VFun counts) (VData Undefined).

(** The state that a chain of registrations leaves. *)
Definition after {U} (chain : M (Sys U) unit) (s : Sys U) : Sys U :=
  match chain s with
  | Ret _ s' => s'
  | _ => s
  end.

(** [command('ban', 'Bans a user.', respond)] and [command('ban', respond)] *)
Definition ban {U} (respond : Fn U) : M (Sys U) unit :=
  command (js "ban") (VData (Str (js "Bans a user."))) (VFun respond) (VData Undefined).

Definition ban_two_args {U} (respond : Fn U) : M (Sys U) unit :=
  command (js "ban") (VFun respond) (VData Undefined) (VData Undefined).

(** Three features without a check, then [help] and [listen]. *)
Definition b_empty_a_help : M (Sys nat) unit :=
  with_help (VData Null) (VFun counts) (VData Null) (VFun counts)
            (VData Null) (VFun counts).

(** A callback that keeps the arguments of its last call. *)
Definition spy : Fn (list data) :=
  fun _ args w => Ret Undefined (set_user args w).

(** ** The vocabulary of the further properties *)

(** [a <= b] on descriptions: [b < a] fails. *)
Definition desc_le {U} (f g : Feature U) : Prop := str_lt (desc g) (desc f) = false.

(** A callback that, called where the [lastIndex] of [x] is 0, returns
    where it is 0. *)
Definition keeps_reset {U} (x : RegExp) (rsp : val U) : Prop :=
  forall env args w v w',
    get_lastIndex x w = 0 -> call rsp env args w = Ret v w' -> get_lastIndex x w' = 0.

(** A registration that adds one feature at the end when it returns, and
    leaves the registry when it throws. *)
Definition adds_one_or_none {U} (op : M (Sys U) unit) : Prop :=
  forall s,
    match op s with
    | Ret _ s' => exists f, features s' = features s ++ [f]
    | Throw _ s' => features s' = features s
    | Unmodelled => True
    end.

(** The request that [send(x)] hands to the transport in [w]. *)
Definition post_of {U} (x : list ascii) (w : World U) : Post :=
  {| bot_id := botId w; post_text := trim x; picture_url := None |}.

(** The error that the callback of [send] receives for a reply. *)
Definition reply_error (r : reply) : option exn :=
  match r with
  | Failed err => Some err
  | Answered statusCode body =>
      if decide (statusCode = 202) then None else Some (ErrorObj body)
  end.

(** A check that throws, and
    [feature(always, counts).feature(check_throws, counts)]. *)
Definition check_throws : Fn nat :=
  fun _ _ w => Throw (ErrorObj (js "bad check")) w.

Definition counter_then_bad_check : M (Sys nat) unit :=
  _ <- feature (VFun always) (VFun counts) (VData Undefined) ;;
  feature (VFun check_throws) (VFun counts) (VData Undefined).

(** A feature that accepts every message and counts. *)
Definition counting_feature : Feature nat :=
  {| desc := []; check := VFun always; respond := VFun counts |}.

(** The [RegExp] object of the literal [hi] in cell 0. *)
Definition hi_regex : RegExp :=
  {| pat := lits (js "hi") Eps; global := true; cell := 0 |}.

(** A supplier that counts its calls and returns [v]. *)
Definition supplies (v : data) : Fn nat :=
  fun _ _ w => Ret v (set_user (S (user w)) w).

(** A callback of [send] that keeps what it was called with. *)
Definition keeps_error : option exn -> M (World (list (option exn))) unit :=
  fun e w => Ret tt (set_user (user w ++ [e]) w).

(** * Properties *)

(** ** The patterns that the module builds *)

Lemma meta_escape c : is_meta c = true -> escape c = Some (Chr c).
Proof.
  destruct c as [[] [] [] [] [] [] [] []]; vm_compute; intros H;
    first [reflexivity | discriminate H].
Qed.

Lemma not_meta_plain c :
  is_meta c = false ->
  Ascii.eqb c "\" = false /\ Ascii.eqb c "(" = false /\
  plain c = Some (TAtom (Chr c)).
Proof.
  destruct c as [[] [] [] [] [] [] [] []]; vm_compute; intros H;
    first [discriminate H | repeat split].
Qed.

Lemma lex_quote s rest ts :
  lex rest = Some ts ->
  lex (quote s ++ rest) = Some (map (fun c => TAtom (Chr c)) s ++ ts).
Proof.
  intros Hrest. induction s as [|c s IH]; [exact Hrest|].
  cbn [quote]. destruct (is_meta c) eqn:Hm.
  - change (("\" :: c :: quote s) ++ rest) with ("\" :: c :: (quote s ++ rest)).
    cbn [lex]. change (Ascii.eqb "\" "\") with true. cbn match.
    rewrite (meta_escape c Hm), IH. reflexivity.
  - destruct (not_meta_plain c Hm) as (H1 & H2 & H3).
    change ((c :: quote s) ++ rest) with (c :: (quote s ++ rest)).
    cbn [lex]. rewrite H1, H2, H3, IH. reflexivity.
Qed.

Lemma run_chars s ts f stack :
  run (f, stack) (map (fun c => TAtom (Chr c)) s ++ ts) =
  run (push_chars s f, stack) ts.
Proof.
  revert f. induction s as [|c s IH]; intros f; [reflexivity|].
  cbn [map app run step is_anchor negb]. apply IH.
Qed.

Lemma push_chars_alts s f : alts (push_chars s f) = alts f.
Proof.
  revert f. induction s as [|c s IH]; intros f; [reflexivity|].
  exact (IH (push (Chr c) true f)).
Qed.

Lemma push_chars_capturing s f : capturing (push_chars s f) = capturing f.
Proof.
  revert f. induction s as [|c s IH]; intros f; [reflexivity|].
  exact (IH (push (Chr c) true f)).
Qed.

Lemma push_chars_seq s f t :
  foldl (fun acc a => Seq a acc) t (cur (push_chars s f)) =
  foldl (fun acc a => Seq a acc) (lits s t) (cur f).
Proof.
  revert f t. induction s as [|c s IH]; intros f t; [reflexivity|].
  exact (IH (push (Chr c) true f) t).
Qed.

(** A quoted string is the pattern of its characters. *)
Lemma parse_quote s : parse (quote s) = Some (lits s Eps).
Proof.
  unfold parse.
  rewrite <- (app_nil_r (quote s)), (lex_quote s [] [] eq_refl).
  rewrite run_chars. cbn [run]. unfold close, mk_seq.
  rewrite push_chars_alts, push_chars_seq. reflexivity.
Qed.

Lemma parse_command_source name :
  parse (js "^/" ++ quote name ++ js "(\s|$)") = Some (command_re name).
Proof.
  unfold parse.
  change (js "^/" ++ quote name ++ js "(\s|$)")
    with ("^" :: "/" :: (quote name ++ js "(\s|$)")).
  cbn [lex]. change (Ascii.eqb "^" "\") with false.
  change (Ascii.eqb "^" "(") with false. change (Ascii.eqb "/" "\") with false.
  change (Ascii.eqb "/" "(") with false. cbn match.
  change (plain "^") with (Some (TAtom Bol)).
  change (plain "/") with (Some (TAtom (Chr "/"))).
  rewrite (lex_quote name (js "(\s|$)") _ eq_refl).
  cbn [run step is_anchor negb]. rewrite run_chars.
  cbn [run step quantify push cur alts capturing quantifiable].
  unfold close at 1. cbn [alts cur push]. rewrite push_chars_alts. cbn [alts foldl].
  unfold mk_seq at 1. cbn [foldl]. rewrite push_chars_seq. reflexivity.
Qed.

(** ** Matching a literal and a command *)

Lemma mt_lits text p t k i :
  mt text (lits p t) k i =
  if decide (take (length p) (drop i text) = p)
  then mt text t k (i + length p) else None.
Proof.
  revert i. induction p as [|c p IH]; intros i.
  - cbn [lits foldr length]. rewrite Nat.add_0_r. reflexivity.
  - cbn [lits foldr mt length]. fold (lits p t).
    destruct (text !! i) as [d|] eqn:Hi.
    + rewrite (drop_S _ _ _ Hi). cbn [take].
      destruct (Ascii.eqb d c) eqn:Hdc.
      * apply Ascii.eqb_eq in Hdc. subst d. rewrite IH.
        replace (i + S (length p)) with (S i + length p) by lia.
        destruct (decide (take (length p) (drop (S i) text) = p)) as [Hp|Hp];
          destruct (decide (c :: take (length p) (drop (S i) text) = c :: p)) as [Hq|Hq];
          congruence.
      * apply Ascii.eqb_neq in Hdc.
        destruct (decide (d :: take (length p) (drop (S i) text) = c :: p)) as [Hq|Hq];
          congruence.
    + apply lookup_ge_None in Hi. rewrite (drop_ge _ _ Hi). cbn [take].
      destruct (decide ([] = c :: p)); congruence.
Qed.

Lemma mt_command_re name text i :
  mt text (command_re name) Some i =
  if Nat.eqb i 0 then command_end name text else None.
Proof.
  set (t := Seq (Grp (Alt (Seq (Cls false Space) Eps) (Seq Eol Eps))) Eps).
  change (mt text (command_re name) Some i)
    with (if Nat.eqb i 0 then mt text (lits ("/" :: name) t) Some i else None).
  destruct (Nat.eqb i 0) eqn:Hi; [|reflexivity].
  apply Nat.eqb_eq in Hi. subst i.
  rewrite mt_lits. unfold command_end, t. cbn [mt].
  rewrite drop_0. cbn [length Nat.add].
  destruct (decide (take (S (length name)) text = "/" :: name)) as [Hp|Hp];
    [|reflexivity].
  cbn [xorb in_cls].
  destruct (text !! S (length name)) as [d|] eqn:Hd.
  - destruct (is_space d); [reflexivity|].
    apply lookup_lt_Some in Hd.
    destruct (Nat.eqb (S (length name)) (length text)) eqn:He; [|reflexivity].
    apply Nat.eqb_eq in He. lia.
  - apply lookup_ge_None in Hd.
    assert (length (take (S (length name)) text) = S (length name)) as Hl
      by (rewrite Hp; reflexivity).
    rewrite length_take in Hl.
    replace (Nat.eqb (S (length name)) (length text)) with true
      by (symmetry; apply Nat.eqb_eq; lia).
    reflexivity.
Qed.

Lemma search_command_re_later name text n i :
  search text (command_re name) n (S i) = None.
Proof.
  revert i. induction n as [|n IH]; intros i; cbn [search];
    rewrite mt_command_re; cbn [Nat.eqb]; [reflexivity | apply IH].
Qed.

Lemma exec_command_re name text li :
  exec text (command_re name) li =
  if Nat.eqb li 0
  then match command_end name text with Some e => Some (0, e) | None => None end
  else None.
Proof.
  unfold exec. destruct li as [|li].
  - cbn [Nat.ltb Nat.leb Nat.eqb]. rewrite Nat.sub_0_r.
    destruct (length text) as [|n]; cbn [search]; rewrite mt_command_re;
      cbn [Nat.eqb]; destruct (command_end name text); try reflexivity.
    apply search_command_re_later.
  - cbn [Nat.eqb]. destruct (Nat.ltb (length text) (S li)); [reflexivity|].
    apply search_command_re_later.
Qed.

Lemma command_end_begins name rest :
  command_end name ("/" :: name ++ rest) =
  match rest with
  | [] => Some (S (length name))
  | c :: _ => if is_space c then Some (S (S (length name))) else None
  end.
Proof.
  unfold command_end.
  change ("/" :: name ++ rest) with (("/" :: name) ++ rest).
  replace (S (length name)) with (length ("/" :: name)) by reflexivity.
  rewrite take_app_length.
  destruct (decide ("/" :: name = "/" :: name)); [|congruence].
  rewrite lookup_app_r by lia. rewrite Nat.sub_diag.
  destruct rest; reflexivity.
Qed.

Lemma command_end_Some name text e :
  command_end name text = Some e -> begins_with_command name text.
Proof.
  unfold command_end.
  destruct (decide (take (S (length name)) text = "/" :: name)) as [Hp|]; [|discriminate].
  intros H. exists (drop (S (length name)) text).
  rewrite <- (take_drop (S (length name)) text) at 1. rewrite Hp. split; [reflexivity|].
  destruct (text !! S (length name)) as [d|] eqn:Hd.
  - right. exists d, (drop (S (S (length name))) text). split.
    + apply drop_S, Hd.
    + destruct (is_space d); [reflexivity | discriminate].
  - left. apply drop_ge. now apply lookup_ge_None.
Qed.

Lemma begins_command_end name text :
  begins_with_command name text -> exists e, command_end name text = Some e.
Proof.
  intros (rest & -> & [-> | (c & rest' & -> & Hc)]);
    rewrite command_end_begins; [|rewrite Hc]; eauto.
Qed.

Lemma command_end_pos name text e : command_end name text = Some e -> 0 < e.
Proof.
  unfold command_end. destruct (decide _); [|discriminate].
  destruct (text !! S (length name)) as [d|]; [destruct (is_space d)|];
    intros H; inversion H; lia.
Qed.

Lemma matches_command_re name text :
  matches text (command_re name) =
  match command_end name text with Some e => [(0, e)] | None => [] end.
Proof.
  unfold matches. cbn [exec_all]. rewrite !exec_command_re. cbn [Nat.eqb].
  destruct (command_end name text) as [e|] eqn:He; [|reflexivity].
  apply command_end_pos in He. destruct e as [|e]; [lia|].
  cbn [Nat.eqb]. rewrite exec_command_re. reflexivity.
Qed.

(** Replacing [^/<name>(\s|$)] by the empty string drops the match. *)
Lemma replace_all_command_re name text :
  replace_all text (command_re name) =
  match command_end name text with Some e => drop e text | None => text end.
Proof.
  unfold replace_all. rewrite matches_command_re.
  destruct (command_end name text); cbn [remove_matches Nat.leb]; [|apply drop_0].
  unfold substring. rewrite Nat.sub_diag. reflexivity.
Qed.

(** ** Splitting on the empty pattern *)

Lemma split_loop_Eps text n : forall p fuel,
  length text - p = S n -> 2 * S n <= fuel ->
  split_loop text Eps fuel p p = map (fun c => [c]) (drop p text).
Proof.
  induction n as [|n IH]; intros p fuel Hn Hf.
  - destruct fuel as [|[|fuel]]; [lia | lia |].
    cbn [split_loop mt].
    replace (Nat.ltb p (length text)) with true by (symmetry; apply Nat.ltb_lt; lia).
    replace (Nat.min p (length text)) with p by lia.
    rewrite Nat.eqb_refl.
    replace (Nat.ltb (S p) (length text)) with false by (symmetry; apply Nat.ltb_ge; lia).
    destruct (lookup_lt_is_Some_2 text p ltac:(lia)) as [c Hc].
    rewrite (drop_S _ _ _ Hc), (drop_ge text (S p)) by lia. reflexivity.
  - destruct fuel as [|[|fuel]]; [lia | lia |].
    cbn [split_loop mt].
    replace (Nat.ltb p (length text)) with true by (symmetry; apply Nat.ltb_lt; lia).
    replace (Nat.min p (length text)) with p by lia.
    rewrite Nat.eqb_refl.
    replace (Nat.ltb (S p) (length text)) with true by (symmetry; apply Nat.ltb_lt; lia).
    replace (Nat.min (S p) (length text)) with (S p) by lia.
    replace (Nat.eqb (S p) p) with false by (symmetry; apply Nat.eqb_neq; lia).
    rewrite IH by lia.
    destruct (lookup_lt_is_Some_2 text p ltac:(lia)) as [c Hc].
    rewrite (drop_S _ _ _ Hc). unfold substring.
    replace (S p - p) with 1 by lia. rewrite (drop_S _ _ _ Hc). reflexivity.
Qed.

(** Split on the empty pattern, a text falls into its code units. *)
Lemma split_Eps text : split text Eps = Some (map (fun c => [c]) text).
Proof.
  unfold split. cbn [has_group]. destruct text as [|c text]; [reflexivity|].
  rewrite (split_loop_Eps (c :: text) (length text)); cbn [length]; try lia.
  reflexivity.
Qed.

(** ** Splitting on white space *)

Lemma ws_prefix_le s : ws_prefix s <= length s.
Proof. induction s as [|c s IH]; cbn; [lia|]. destruct (is_space c); cbn; lia. Qed.

Lemma ws_loop_run text n : forall i,
  ws_prefix (drop i text) <= n ->
  ws_loop text n i = Some (i + ws_prefix (drop i text)).
Proof.
  induction n as [|n IH]; intros i Hn.
  - cbn. f_equal. lia.
  - cbn [ws_loop mt xorb in_cls]. fold (ws_loop text).
    destruct (text !! i) as [d|] eqn:Hi.
    + rewrite (drop_S _ _ _ Hi) in Hn |- *. cbn [ws_prefix] in Hn |- *.
      destruct (is_space d).
      * replace (Nat.ltb i (S i)) with true by (symmetry; apply Nat.ltb_lt; lia).
        rewrite IH by lia. f_equal. lia.
      * f_equal. lia.
    + rewrite drop_ge by (now apply lookup_ge_None). cbn. f_equal. lia.
Qed.

Lemma mt_ws_plus text q :
  mt text ws_plus Some q =
  match text !! q with
  | Some d =>
      if is_space d then Some (S q + ws_prefix (drop (S q) text)) else None
  | None => None
  end.
Proof.
  unfold ws_plus, Plus. cbn [mt xorb in_cls].
  destruct (text !! q) as [d|]; [|reflexivity].
  destruct (is_space d); [|reflexivity].
  change (ws_loop text (S (length text)) (S q) = Some (S q + ws_prefix (drop (S q) text))).
  apply ws_loop_run.
  pose proof (ws_prefix_le (drop (S q) text)) as H. rewrite length_drop in H. lia.
Qed.

Lemma fields_gap s :
  fields true [] s = fields false [] (drop (ws_prefix s) s).
Proof.
  induction s as [|c s IH]; [reflexivity|].
  cbn [fields ws_prefix]. destruct (is_space c) eqn:Hc.
  - cbn [drop]. exact IH.
  - cbn [drop fields]. rewrite Hc. reflexivity.
Qed.

Lemma split_loop_ws text fuel : forall p q,
  p <= q -> length text - q < fuel ->
  split_loop text ws_plus fuel p q = fields false (substring text p q) (drop q text).
Proof.
  induction fuel as [|fuel IH]; intros p q Hpq Hf; [lia|].
  cbn [split_loop]. rewrite mt_ws_plus.
  destruct (text !! q) as [d|] eqn:Hq.
  - pose proof (lookup_lt_Some _ _ _ Hq) as Hlt.
    replace (Nat.ltb q (length text)) with true by (symmetry; apply Nat.ltb_lt; lia).
    rewrite (drop_S _ _ _ Hq). cbn [fields].
    destruct (is_space d).
    + pose proof (ws_prefix_le (drop (S q) text)) as Hle. rewrite length_drop in Hle.
      set (e := S q + ws_prefix (drop (S q) text)) in *.
      replace (Nat.min e (length text)) with e by lia.
      replace (Nat.eqb e p) with false by (symmetry; apply Nat.eqb_neq; lia).
      rewrite IH by lia. unfold substring at 2. rewrite Nat.sub_diag. cbn [take].
      rewrite fields_gap. unfold e. rewrite drop_drop. reflexivity.
    + rewrite IH by lia. f_equal. unfold substring.
      replace (S q - p) with (S (q - p)) by lia.
      apply take_S_r. rewrite lookup_drop. replace (p + (q - p)) with q by lia.
      exact Hq.
  - apply lookup_ge_None in Hq.
    replace (Nat.ltb q (length text)) with false by (symmetry; apply Nat.ltb_ge; lia).
    rewrite (drop_ge text q) by lia. cbn [fields]. unfold substring.
    rewrite take_ge; [reflexivity|]. rewrite length_drop. lia.
Qed.

(** Split on [/\s+/], a text falls into the pieces between its runs of
    white space. *)
Lemma split_ws_plus text : split text ws_plus = Some (words text).
Proof.
  unfold split. change (has_group ws_plus) with false. cbn match.
  destruct text as [|c text]; [reflexivity|].
  rewrite split_loop_ws by (cbn [length]; lia).
  unfold substring. rewrite Nat.sub_diag, drop_0. reflexivity.
Qed.

(** ** Searching for a literal *)

Lemma search_None text r n : forall i,
  search text r n i = None <->
  forall j, i <= j <= i + n -> mt text r Some j = None.
Proof.
  induction n as [|n IH]; intros i; cbn [search].
  - destruct (mt text r Some i) as [e|] eqn:He; split; try discriminate; try reflexivity.
    + intros H. specialize (H i ltac:(lia)). congruence.
    + intros _ j Hj. replace j with i by lia. exact He.
  - destruct (mt text r Some i) as [e|] eqn:He; split; try discriminate.
    + intros H. specialize (H i ltac:(lia)). congruence.
    + intros H j Hj. destruct (decide (j = i)) as [->|Hne]; [exact He|].
      apply (proj1 (IH (S i)) H). lia.
    + intros H. apply IH. intros j Hj. apply H. lia.
Qed.

Lemma search_Some text r n : forall i j e,
  search text r n i = Some (j, e) ->
  i <= j <= i + n /\ mt text r Some j = Some e.
Proof.
  induction n as [|n IH]; intros i j e; cbn [search];
    destruct (mt text r Some i) as [e'|] eqn:He; try discriminate.
  - intros H. inversion H; subst. split; [lia | exact He].
  - intros H. inversion H; subst. split; [lia | exact He].
  - intros H. apply IH in H. split; [lia | tauto].
Qed.

Lemma occurs_at p text :
  occurs p text <->
  exists j, j <= length text /\ take (length p) (drop j text) = p.
Proof.
  split.
  - intros (pre & post & ->). exists (length pre). split.
    + rewrite length_app. lia.
    + rewrite drop_app_length, take_app_length. reflexivity.
  - intros (j & Hj & Hp). exists (take j text), (drop (length p) (drop j text)).
    rewrite <- Hp at 1. rewrite take_drop, take_drop. reflexivity.
Qed.

Lemma mt_literal text p j :
  mt text (lits p Eps) Some j =
  if decide (take (length p) (drop j text) = p) then Some (j + length p) else None.
Proof. rewrite mt_lits. reflexivity. Qed.

(** From [lastIndex = 0], [exec] finds a literal exactly when it occurs. *)
Lemma exec_literal_fresh p text :
  (exists m, exec text (lits p Eps) 0 = Some m) <-> occurs p text.
Proof.
  unfold exec. cbn [Nat.ltb Nat.leb]. rewrite Nat.sub_0_r, occurs_at. split.
  - intros ((j & e) & H). apply search_Some in H as [Hj H].
    rewrite mt_literal in H. destruct (decide _) as [Hp|]; [|discriminate].
    exists j. split; [lia | exact Hp].
  - intros (j & Hj & Hp).
    destruct (search text (lits p Eps) (length text) 0) as [m|] eqn:Hs; [eauto|].
    pose proof (proj1 (search_None _ _ _ _) Hs j ltac:(lia)) as H.
    rewrite mt_literal in H. destruct (decide _); [discriminate | contradiction].
Qed.

(** ** Splitting on a literal *)

Lemma lits_no_group sep : has_group (lits sep Eps) = false.
Proof. induction sep as [|c sep IH]; [reflexivity | exact IH]. Qed.

Lemma split_on_skip sep k : forall cur s,
  split_on sep k cur s = split_on sep 0 cur (drop k s).
Proof.
  induction k as [|k IH]; intros cur s; [now rewrite drop_0|].
  destruct s as [|c s]; [reflexivity|]. cbn [split_on drop]. apply IH.
Qed.

Lemma split_loop_literal sep text fuel : forall p q,
  sep <> [] -> p <= q -> length text - q < fuel ->
  split_loop text (lits sep Eps) fuel p q =
  split_on sep 0 (substring text p q) (drop q text).
Proof.
  induction fuel as [|fuel IH]; intros p q Hsep Hpq Hf; [lia|].
  assert (0 < length sep) as Hlen by (destruct sep; [congruence | cbn; lia]).
  cbn [split_loop]. rewrite mt_literal.
  destruct (text !! q) as [d|] eqn:Hq.
  - pose proof (lookup_lt_Some _ _ _ Hq) as Hlt.
    replace (Nat.ltb q (length text)) with true by (symmetry; apply Nat.ltb_lt; lia).
    rewrite (drop_S _ _ _ Hq). cbn [split_on]. rewrite <- (drop_S _ _ _ Hq).
    destruct (decide (take (length sep) (drop q text) = sep)) as [Hm|Hm].
    + assert (q + length sep <= length text) as Hle.
      { apply (f_equal length) in Hm. rewrite length_take, length_drop in Hm. lia. }
      replace (Nat.min (q + length sep) (length text)) with (q + length sep) by lia.
      replace (Nat.eqb (q + length sep) p) with false
        by (symmetry; apply Nat.eqb_neq; lia).
      rewrite IH by first [exact Hsep | lia].
      rewrite (split_on_skip sep (length sep - 1)), drop_drop.
      unfold substring at 2. rewrite Nat.sub_diag. cbn [take].
      replace (S q + (length sep - 1)) with (q + length sep) by lia. reflexivity.
    + rewrite IH by first [exact Hsep | lia]. f_equal. unfold substring.
      replace (S q - p) with (S (q - p)) by lia.
      apply take_S_r. rewrite lookup_drop. replace (p + (q - p)) with q by lia.
      exact Hq.
  - apply lookup_ge_None in Hq.
    replace (Nat.ltb q (length text)) with false by (symmetry; apply Nat.ltb_ge; lia).
    rewrite (drop_ge text q) by lia. cbn [split_on]. unfold substring.
    rewrite take_ge; [reflexivity|]. rewrite length_drop. lia.
Qed.

(** Split on the pattern of a separator, a text falls into its pieces. *)
Lemma split_pieces sp text : split text (separator_re sp) = Some (pieces sp text).
Proof.
  destruct sp as [|sep]; [apply split_ws_plus|].
  destruct sep as [|c sep]; [apply split_Eps|].
  unfold split. cbn [separator_re]. rewrite lits_no_group.
  destruct text as [|d text].
  - rewrite mt_literal. reflexivity.
  - rewrite split_loop_literal by (cbn [length]; first [congruence | lia]).
    unfold substring. rewrite Nat.sub_diag, drop_0. reflexivity.
Qed.

(** ** What the entry points register *)

Section Registration.
Context {U : Type}.
Implicit Types (w : World U) (s : Sys U).

Lemma new_RegExp_quote p w :
  new_RegExp (VData (Str (quote p))) w =
  Ret {| pat := lits p Eps; global := true; cell := length (lastIndex w) |}
      (set_lastIndex (lastIndex w ++ [0]) w).
Proof. unfold new_RegExp, source_of. rewrite parse_quote. reflexivity. Qed.

Lemma new_RegExp_command name w :
  new_RegExp (VData (Str (js "^/" ++ quote name ++ js "(\s|$)"))) w =
  Ret {| pat := command_re name; global := true; cell := length (lastIndex w) |}
      (set_lastIndex (lastIndex w ++ [0]) w).
Proof. unfold new_RegExp, source_of. rewrite parse_command_source. reflexivity. Qed.

Lemma pattern_literal d p respond s :
  nullish respond = false ->
  pattern (VData (Str d)) (VData (Str p)) respond s =
  Ret tt {| features := features s ++
              [literal_feature d p respond (length (lastIndex (world s)))];
            world := set_lastIndex (lastIndex (world s) ++ [0]) (world s) |}.
Proof.
  intros Hr. unfold pattern. rewrite Hr. unfold bind, in_world.
  rewrite new_RegExp_quote. reflexivity.
Qed.

(** [command(name, respond)] *)
Lemma command_two_args name (respond : Fn U) s :
  command name (VFun respond) (VData Undefined) (VData Undefined) s =
  Ret tt {| features := features s ++
              [command_feature name []
                 {| pat := Eps; global := true; cell := length (lastIndex (world s)) |}
                 (VFun respond) (length (lastIndex (grow 1 (world s))))];
            world := grow 2 (world s) |}.
Proof.
  unfold command. cbn [nullish]. unfold bind, in_world, ret.
  cbn [new_RegExp source_of parse lex run close cur alts mk_seq foldl alloc
       world features lastIndex set_lastIndex].
  rewrite parse_command_source. unfold pattern. cbn [nullish]. reflexivity.
Qed.

(** [command(name, desc, respond)] *)
Lemma command_three_args name d (respond : Fn U) s :
  command name (VData (Str d)) (VFun respond) (VData Undefined) s =
  Ret tt {| features := features s ++
              [command_feature name (js " - " ++ trim d)
                 {| pat := ws_plus; global := true;
                    cell := length (lastIndex (grow 1 (world s))) |}
                 (VFun respond) (length (lastIndex (grow 2 (world s))))];
            world := grow 3 (world s) |}.
Proof.
  unfold command. cbn [nullish]. unfold bind, in_world, ret.
  cbn [new_RegExp source_of alloc trim_of world features lastIndex set_lastIndex pat].
  unfold ret.
  cbn [new_RegExp source_of alloc trim_of world features lastIndex set_lastIndex pat].
  rewrite parse_command_source. unfold pattern. cbn [nullish]. reflexivity.
Qed.

(** [command(name, desc, sep, respond)] with a string for [sep] *)
Lemma command_four_args name d sep (respond : Fn U) s :
  command name (VData (Str d)) (VData (Str sep)) (VFun respond) s =
  Ret tt {| features := features s ++
              [command_feature name (js " - " ++ trim d)
                 {| pat := lits sep Eps; global := true;
                    cell := length (lastIndex (world s)) |}
                 (VFun respond) (length (lastIndex (grow 1 (world s))))];
            world := grow 2 (world s) |}.
Proof.
  unfold command. cbn [nullish]. unfold bind, in_world, ret.
  cbn [trim_of world features]. unfold ret. cbn [world features].
  rewrite new_RegExp_quote. cbn [world features].
  rewrite new_RegExp_command. unfold pattern. cbn [nullish]. reflexivity.
Qed.

Lemma put_put (x : RegExp) i j w :
  put_lastIndex x i (put_lastIndex x j w) = put_lastIndex x i w.
Proof.
  unfold put_lastIndex, set_lastIndex. cbn. now rewrite list_insert_insert_eq.
Qed.

Lemma command_check_call name d sep rsp c env m w :
  call (check (command_feature name d sep rsp c)) env [Obj m] w =
  if Nat.eqb (get_lastIndex (command_regex name c) w) 0 then
    match command_end name (text m) with
    | Some e => Ret (Bool true) (put_lastIndex (command_regex name c) e w)
    | None => Ret (Bool false) (put_lastIndex (command_regex name c) 0 w)
    end
  else Ret (Bool false) (put_lastIndex (command_regex name c) 0 w).
Proof.
  cbn [command_feature check call pattern_check]. unfold bind, test. cbn [global pat].
  fold (command_regex name c). rewrite exec_command_re.
  destruct (Nat.eqb (get_lastIndex (command_regex name c) w) 0); [|reflexivity].
  destruct (command_end name (text m)); reflexivity.
Qed.

Lemma command_respond_call name d sep rsp c env m w parts :
  split (trim (replace_all (text m) (command_re name))) (pat sep) = Some parts ->
  call (respond (command_feature name d sep rsp c)) env [Obj m] w =
  call rsp env [Obj m; Arr parts] (put_lastIndex (command_regex name c) 0 w).
Proof.
  intros Hs. cbn [command_feature respond call pattern_respond].
  fold (command_regex name c). unfold bind.
  assert (exists ms, str_match (text m) (command_regex name c) w =
            Ret ms (put_lastIndex (command_regex name c) 0 w)) as [ms ->].
  { unfold str_match. cbn [global command_regex].
    destruct (matches (text m) (pat _)); eauto. }
  cbn [call command_respond]. unfold bind, str_replace, str_split.
  cbn [global command_regex pat]. rewrite Hs. unfold ret. now rewrite put_put.
Qed.

Lemma trim_space c t : is_space c = true -> trim (c :: t) = trim t.
Proof. intros H. unfold trim. cbn [trim_start]. now rewrite H. Qed.

(** What is left of a text that begins with the command, once the match is
    dropped and the rest trimmed. *)
Lemma trim_replace_command name rest :
  rest = [] \/ (exists c rest', rest = c :: rest' /\ is_space c = true) ->
  trim (replace_all ("/" :: name ++ rest) (command_re name)) = trim rest.
Proof.
  intros H. rewrite replace_all_command_re, command_end_begins.
  destruct H as [-> | (c & rest' & -> & Hc)].
  - cbn [drop]. now rewrite drop_app_length.
  - rewrite Hc. cbn [drop].
    replace (S (length name)) with (length name + 1) by lia.
    rewrite <- drop_drop, drop_app_length. cbn [drop].
    rewrite drop_0. symmetry. now apply trim_space.
Qed.

Lemma in_world_features {A} (c : M (World U) A) s a s1 :
  in_world c s = Ret a s1 -> features s1 = features s.
Proof. unfold in_world. destruct (c (world s)); intros H; inversion H; reflexivity. Qed.

(** Whatever the form of the call, a command that is registered is a
    feature of this shape, and the [lastIndex] of its pattern is 0. *)
Lemma command_Ret name dsc sep rsp s s' :
  command name dsc sep rsp s = Ret tt s' ->
  exists d sepx r w1,
    s' = {| features := features s ++
              [command_feature name d sepx r (length (lastIndex w1))];
            world := set_lastIndex (lastIndex w1 ++ [0]) w1 |}.
Proof.
  unfold command. unfold bind at 1.
  destruct (in_world _ s) as [[[d sp] r] s1| |] eqn:E1; try discriminate.
  apply in_world_features in E1.
  unfold bind at 1.
  destruct (in_world _ s1) as [sepx s2| |] eqn:E2; try discriminate.
  apply in_world_features in E2.
  unfold bind, in_world. rewrite new_RegExp_command. unfold pattern.
  cbn [nullish]. unfold bind, ret, feature. cbn [nullish features world].
  intros H. inversion H. rewrite E2, E1. now exists d, sepx, r, (world s2).
Qed.

(** C8: the check of a registered command returns true only on a text that
    begins with [/<name>] followed by white space or by nothing; it does
    return true on such a text when the [lastIndex] of its pattern is 0, as
    it is once the command is registered. *)
Theorem command_check_begins_with_command name dsc sep rsp s s' :
  command name dsc sep rsp s = Ret tt s' ->
  exists f x,
    features s' = features s ++ [f] /\
    get_lastIndex x (world s') = 0 /\
    forall env m w, exists b w',
      call (check f) env [Obj m] w = Ret (Bool b) w' /\
      (b = true -> begins_with_command name (text m)) /\
      (begins_with_command name (text m) -> get_lastIndex x w = 0 -> b = true).
Proof.
  intros H. apply command_Ret in H as (d & sepx & r & w1 & ->).
  exists (command_feature name d sepx r (length (lastIndex w1))),
         (command_regex name (length (lastIndex w1))).
  split; [reflexivity|]. split.
  { unfold get_lastIndex. cbn [world set_lastIndex lastIndex command_regex cell].
    now rewrite list_lookup_middle. }
  intros env m w. rewrite command_check_call.
  destruct (Nat.eqb (get_lastIndex _ w) 0) eqn:Hli.
  - destruct (command_end name (text m)) as [e|] eqn:He.
    + eexists true, _. split; [reflexivity|]. split; [|reflexivity].
      intros _. now apply command_end_Some in He.
    + eexists false, _. split; [reflexivity|]. split; [discriminate|].
      intros Hb _. apply begins_command_end in Hb as [e Hb]. congruence.
  - eexists false, _. split; [reflexivity|]. split; [discriminate|].
    intros _ H0. apply Nat.eqb_neq in Hli. contradiction.
Qed.

Lemma command_with_registers name d sp (rsp : Fn U) s :
  exists c n,
    command_with name d sp rsp s =
    Ret tt {| features := features s ++
                [command_feature name (js " - " ++ trim d)
                   {| pat := separator_re sp; global := true; cell := c |}
                   (VFun rsp) (length (lastIndex (grow n (world s))))];
              world := grow (S n) (world s) |}.
Proof.
  destruct sp as [|sep]; cbn [command_with separator_re].
  - rewrite command_three_args. now eexists _, 2.
  - rewrite command_four_args. now eexists _, 1.
Qed.

(** C3, as the code has it, for a command registered with a description,
    with the separator left out or given as a string: the responder
    receives the pieces into which the separator cuts what follows
    [/<name>], trimmed; when nothing follows, that is the array of one
    empty string, the empty separator apart. *)
Theorem command_respond_arguments name d sp (r : Fn U) s env m rest w :
  text m = "/" :: name ++ rest ->
  rest = [] \/ (exists c rest', rest = c :: rest' /\ is_space c = true) ->
  exists f x s',
    command_with name d sp r s = Ret tt s' /\
    features s' = features s ++ [f] /\
    desc f = js "/" ++ name ++ js " - " ++ trim d /\
    call (respond f) env [Obj m] w =
      r env [Obj m; Arr (pieces sp (trim rest))] (put_lastIndex x 0 w) /\
    (trim rest = [] -> sp <> Literal [] -> pieces sp (trim rest) = [[]]).
Proof.
  intros Ht Hrest. destruct (command_with_registers name d sp r s) as (c & n & Hreg).
  eexists _, _, _. split; [exact Hreg|]. split; [reflexivity|].
  split; [reflexivity|]. split.
  - rewrite (command_respond_call _ _ _ _ _ _ _ _ (pieces sp (trim rest)));
      [reflexivity|].
    rewrite Ht, trim_replace_command by exact Hrest. apply split_pieces.
  - intros -> Hsp. destruct sp as [|[|c0 sep]]; [reflexivity | congruence | reflexivity].
Qed.

(** [command(name, respond)] leaves the separator undefined: the responder
    receives the code units of what follows [/<name>], one by one. *)
Lemma command_two_args_arguments name (r : Fn U) s env m rest w :
  text m = "/" :: name ++ rest ->
  rest = [] \/ (exists c rest', rest = c :: rest' /\ is_space c = true) ->
  exists f x,
    command name (VFun r) (VData Undefined) (VData Undefined) s =
      Ret tt {| features := features s ++ [f]; world := grow 2 (world s) |} /\
    desc f = js "/" ++ name ++ [] /\
    call (respond f) env [Obj m] w =
      r env [Obj m; Arr (map (fun c => [c]) (trim rest))] (put_lastIndex x 0 w).
Proof.
  intros Ht Hrest. eexists _, _. split; [apply command_two_args|].
  split; [reflexivity|].
  rewrite (command_respond_call _ _ _ _ _ _ _ _ (map (fun c => [c]) (trim rest)));
    [reflexivity|].
  rewrite Ht, trim_replace_command by exact Hrest. apply split_Eps.
Qed.

(** [random(name, desc, supply)] registers the command. *)
Lemma random_three_args name d (supply : val U) s :
  nullish supply = false ->
  exists f,
    random name (VData (Str d)) supply s =
      Ret tt {| features := features s ++ [f]; world := grow 3 (world s) |} /\
    desc f = js "/" ++ name ++ js " - " ++ trim d.
Proof.
  intros H. unfold random. rewrite H. rewrite command_three_args.
  eexists. split; reflexivity.
Qed.

(** C5, where the code fails it: [random(name, supply)] does not register
    the command; it throws a [TypeError], whatever the supply, and leaves
    the registry as it was. *)
Theorem random_without_description_throws name (supply : val U) s :
  exists s',
    random name supply (VData Undefined) s = Throw TypeError s' /\
    features s' = features s.
Proof.
  unfold random. cbn [nullish]. unfold command. cbn [nullish].
  unfold bind, in_world, alloc, trim_of, throw. cbn.
  eexists. split; reflexivity.
Qed.

End Registration.

(** ** The dispatcher *)

Section Dispatch.
Context {U : Type}.
Implicit Types (w : World U) (f : Feature U) (fs : list (Feature U)).

Lemma checked_length env m fs w bs w' :
  checked env m fs w bs w' -> length bs = length fs.
Proof. induction 1; cbn; congruence. Qed.

Lemma filter_features_checked env m fs w bs w' :
  checked env m fs w bs w' ->
  forall i, filter_features env m (indexed_from i fs) w =
            Ret (selected bs (indexed_from i fs)) w'.
Proof.
  induction 1 as [w | f fs w bs w' Hf _ IH | f fs w v w1 bs w' Hf Hc _ IH];
    intros i; [reflexivity | |].
  - cbn [indexed_from filter_features selected]. unfold bind, matches_feature.
    cbn [snd]. rewrite Hf. unfold ret at 1. rewrite IH. reflexivity.
  - cbn [indexed_from filter_features selected]. unfold bind, matches_feature.
    cbn [snd]. rewrite Hf. unfold bind. rewrite Hc. unfold ret at 1. rewrite IH.
    reflexivity.
Qed.

Lemma forEach_responded env m (l : list (nat * Feature U)) w w' :
  responded env m (map snd l) w w' ->
  forEach_respond env m l w = (map fst l, Ret tt w').
Proof.
  revert w. induction l as [|[i f] l IH]; intros w H; inversion H; subst.
  - reflexivity.
  - cbn [forEach_respond snd fst map]. cbn [snd] in *.
    match goal with Hg : respond f = _ |- _ => rewrite Hg end.
    match goal with Hg : _ env [Obj m] w = _ |- _ => rewrite Hg end.
    rewrite (IH _ ltac:(eassumption)). reflexivity.
Qed.

Lemma selected_indexed_snd bs fs i :
  map snd (selected bs (indexed_from i fs)) = selected bs fs.
Proof.
  revert fs i. induction bs as [|b bs IH]; intros [|f fs] i; try reflexivity.
  cbn [indexed_from selected]. destruct b; cbn [map snd]; now rewrite IH.
Qed.

Lemma selected_indexed_fst bs fs i :
  map fst (selected bs (indexed_from i fs)) = selected bs (seq i (length fs)).
Proof.
  revert fs i. induction bs as [|b bs IH]; intros [|f fs] i; try reflexivity.
  cbn [indexed_from selected length seq]. destruct b; cbn [map fst]; now rewrite IH.
Qed.

Lemma selected_seq_lower bs i n j : j ∈ selected bs (seq i n) -> i <= j.
Proof.
  revert i n. induction bs as [|b bs IH]; intros i [|n]; cbn [selected seq];
    try (intros H; now apply elem_of_nil in H).
  destruct b; [rewrite elem_of_cons; intros [->|H]; [lia|] | intros H];
    apply IH in H; lia.
Qed.

Lemma selected_seq_count bs : forall i n j,
  length bs = n ->
  count_occ Nat.eq_dec (selected bs (seq i n)) j =
  if decide (i <= j) then
    match bs !! (j - i) with Some true => 1 | _ => 0 end
  else 0.
Proof.
  induction bs as [|b bs IH]; intros i n j Hn; cbn [length] in Hn; subst n.
  - cbn. now destruct (decide (i <= j)).
  - cbn [seq selected].
    assert (count_occ Nat.eq_dec (selected bs (seq (S i) (length bs))) j =
            if decide (i < j) then
              match bs !! (j - S i) with Some true => 1 | _ => 0 end
            else 0) as Hrec.
    { rewrite IH by reflexivity.
      destruct (decide (S i <= j)), (decide (i < j)); try lia; reflexivity. }
    destruct (decide (i <= j)) as [Hij|Hij].
    + destruct (decide (i = j)) as [->|Hne].
      * rewrite Nat.sub_diag. cbn [lookup list_lookup].
        destruct b; cbn [count_occ]; rewrite ?Hrec;
          destruct (Nat.eq_dec j j); try lia;
          destruct (decide (j < j)); try lia; reflexivity.
      * replace (j - i) with (S (j - S i)) by lia. cbn [lookup list_lookup].
        destruct b; cbn [count_occ]; rewrite ?Hrec;
          try (destruct (Nat.eq_dec i j); [lia|]);
          destruct (decide (i < j)); try lia; reflexivity.
    + destruct b; cbn [count_occ]; rewrite ?Hrec;
        try (destruct (Nat.eq_dec i j); [lia|]);
        destruct (decide (i < j)); try lia; reflexivity.
Qed.

Lemma selected_seq_sorted bs : forall i n, StronglySorted lt (selected bs (seq i n)).
Proof.
  induction bs as [|b bs IH]; intros i [|n]; cbn [selected seq]; try constructor.
  destruct b; [|apply IH]. constructor; [apply IH|].
  apply Forall_forall. intros j Hj. apply selected_seq_lower in Hj. lia.
Qed.

Lemma forEach_throws env m (pre post : list (nat * Feature U)) i f g e w w2 w3 :
  responded env m (map snd pre) w w2 ->
  respond f = VFun g ->
  g env [Obj m] w2 = Throw e w3 ->
  forEach_respond env m (pre ++ (i, f) :: post) w = (map fst pre ++ [i], Throw e w3).
Proof.
  intros Hpre Hg He. revert w Hpre.
  induction pre as [|[j h] pre IH]; intros w Hpre; inversion Hpre; subst.
  - cbn [app forEach_respond snd fst map]. now rewrite Hg, He.
  - cbn [app forEach_respond snd fst map]. cbn [snd] in *.
    match goal with Hh : respond h = _ |- _ => rewrite Hh end.
    match goal with Hh : _ env [Obj m] w = _ |- _ => rewrite Hh end.
    rewrite (IH _ ltac:(eassumption)). reflexivity.
Qed.

Lemma indexed_from_lookup fs : forall i j f,
  (j, f) ∈ indexed_from i fs -> i <= j /\ fs !! (j - i) = Some f.
Proof.
  induction fs as [|h fs IH]; intros i j f; cbn [indexed_from].
  - intros H. now apply elem_of_nil in H.
  - rewrite elem_of_cons. intros [H|H].
    + inversion H; subst. rewrite Nat.sub_diag. split; [lia | reflexivity].
    + apply IH in H as [Hle Hl]. split; [lia|].
      replace (j - i) with (S (j - S i)) by lia. exact Hl.
Qed.

Lemma filter_features_sound env m (l ms : list (nat * Feature U)) w w' :
  filter_features env m l w = Ret ms w' ->
  forall x, x ∈ ms -> x ∈ l /\ truthy_val (check (snd x)) = true.
Proof.
  revert w ms. induction l as [|y l IH]; intros w ms; cbn [filter_features].
  - intros H. inversion H. intros x Hx. now apply elem_of_nil in Hx.
  - unfold bind at 1.
    destruct (matches_feature env m (snd y) w) as [keep w1| |] eqn:Hy; try discriminate.
    unfold bind at 1.
    destruct (filter_features env m l w1) as [rest w2| |] eqn:Hl; try discriminate.
    unfold ret. intros H. inversion H; subst. intros x Hx.
    assert (x ∈ rest -> x ∈ y :: l /\ truthy_val (check (snd x)) = true) as Hrest.
    { intros Hr. destruct (IH _ _ Hl x Hr). split; [now apply elem_of_cons; right | easy]. }
    destruct keep; [|now apply Hrest].
    apply elem_of_cons in Hx as [->|Hx]; [|now apply Hrest].
    split; [now apply elem_of_cons; left|].
    unfold matches_feature in Hy. destruct (truthy_val (check (snd y))); [reflexivity|].
    inversion Hy.
Qed.

Lemma forEach_trace env m (l : list (nat * Feature U)) w j :
  j ∈ fst (forEach_respond env m l w) -> j ∈ map fst l.
Proof.
  revert w. induction l as [|[i f] l IH]; intros w; cbn [forEach_respond map fst snd].
  - intros H. now apply elem_of_nil in H.
  - destruct (respond f) as [d|g]; cbn [fst].
    + intros H. now apply elem_of_nil in H.
    + destruct (g env [Obj m] w) as [v w1| |]; cbn [fst].
      * specialize (IH w1). destruct (forEach_respond env m l w1) as [called r].
        cbn [fst] in *. rewrite !elem_of_cons. intros [->|H]; [now left | right; auto].
      * rewrite elem_of_cons. intros [->|H]; [|now apply elem_of_nil in H].
        apply elem_of_cons. now left.
      * rewrite elem_of_cons. intros [->|H]; [|now apply elem_of_nil in H].
        apply elem_of_cons. now left.
Qed.

(** The responders are called along the list, from its head on. *)
Lemma forEach_prefix env m (l : list (nat * Feature U)) w :
  fst (forEach_respond env m l w) `prefix_of` map fst l.
Proof.
  revert w. induction l as [|[i f] l IH]; intros w; cbn [forEach_respond map fst snd].
  - apply prefix_nil.
  - destruct (respond f) as [d|g]; [apply prefix_nil|].
    destruct (g env [Obj m] w) as [v w1| |]; cbn [fst].
    + specialize (IH w1). destruct (forEach_respond env m l w1) as [called r].
      now apply prefix_cons.
    + apply prefix_cons, prefix_nil.
    + apply prefix_cons, prefix_nil.
Qed.

(** C2: a message whose sender type is not "user" reaches no responder.
    For a message of a user on which the checks return the flags [bs], the
    calls follow the order of the registry, the responder of feature [i]
    is called at most once if the check of [i] returned true and not at
    all otherwise; when the responders called all return, it is called
    exactly once if the check of [i] returned true. *)
Theorem server_calls_each_match_once (m : Message) (s : Sys U) :
  (sender_type m <> js "user" -> server m s = ([], Ret tt (world s))) /\
  (sender_type m = js "user" ->
   forall bs w1,
     checked (map desc (features s)) m (features s) (world s) bs w1 ->
     StronglySorted lt (fst (server m s)) /\
     (forall i, count_occ Nat.eq_dec (fst (server m s)) i <=
                match bs !! i with Some true => 1 | _ => 0 end) /\
     (forall w2,
        responded (map desc (features s)) m (selected bs (features s)) w1 w2 ->
        snd (server m s) = Ret tt w2 /\
        forall i, count_occ Nat.eq_dec (fst (server m s)) i =
                  match bs !! i with Some true => 1 | _ => 0 end)).
Proof.
  unfold server. split; intros Hu.
  - destruct (decide (sender_type m = js "user")); [contradiction | reflexivity].
  - intros bs w1 Hc.
    destruct (decide (sender_type m = js "user")); [|contradiction].
    unfold indexed. rewrite (filter_features_checked _ _ _ _ _ _ Hc 0).
    assert (forall i, count_occ Nat.eq_dec (selected bs (seq 0 (length (features s)))) i =
                      match bs !! i with Some true => 1 | _ => 0 end) as Hcount.
    { intros i. rewrite selected_seq_count by (now apply checked_length in Hc).
      destruct (decide (0 <= i)); [|lia]. now rewrite Nat.sub_0_r. }
    pose proof (forEach_prefix (map desc (features s)) m
                  (selected bs (indexed_from 0 (features s))) w1) as [k Hk].
    rewrite selected_indexed_fst in Hk.
    split; [|split].
    + apply (StronglySorted_app_1_l _ _ k). rewrite <- Hk. apply selected_seq_sorted.
    + intros i. rewrite <- Hcount, Hk, count_occ_app. lia.
    + intros w2 Hr.
      rewrite (forEach_responded _ _ _ w1 w2) by (now rewrite selected_indexed_snd).
      cbn [fst snd]. rewrite selected_indexed_fst. split; [reflexivity | exact Hcount].
Qed.

(** C1, as the code has it: when the responder of a matched feature throws,
    the dispatch ends with that exception; the responders of the features
    matched before it were called, and the responder of no feature matched
    after it is called. *)
Theorem server_stops_at_throwing_responder (m : Message) (s : Sys U)
    bs w1 pre i f post w2 g e w3 :
  sender_type m = js "user" ->
  checked (map desc (features s)) m (features s) (world s) bs w1 ->
  selected bs (indexed (features s)) = pre ++ (i, f) :: post ->
  responded (map desc (features s)) m (map snd pre) w1 w2 ->
  respond f = VFun g ->
  g (map desc (features s)) [Obj m] w2 = Throw e w3 ->
  server m s = (map fst pre ++ [i], Throw e w3) /\
  (forall j, j ∈ map fst post -> j ∉ fst (server m s)).
Proof.
  intros Hu Hc Hsel Hpre Hg He.
  assert (server m s = (map fst pre ++ [i], Throw e w3)) as Hs.
  { unfold server. destruct (decide (sender_type m = js "user")); [|contradiction].
    unfold indexed in *. rewrite (filter_features_checked _ _ _ _ _ _ Hc 0), Hsel.
    now apply forEach_throws with (g := g) (w2 := w2). }
  split; [exact Hs|]. rewrite Hs. cbn [fst]. intros j Hj Hin.
  pose proof (selected_seq_sorted bs 0 (length (features s))) as Hsorted.
  unfold indexed in Hsel. rewrite <- selected_indexed_fst, Hsel in Hsorted.
  rewrite map_app in Hsorted. cbn [map fst] in Hsorted.
  replace (map fst pre ++ i :: map fst post)
    with ((map fst pre ++ [i]) ++ map fst post) in Hsorted
    by (now rewrite <- app_assoc).
  pose proof (StronglySorted_app_1_elem_of _ _ _ _ _ Hsorted Hin Hj). lia.
Qed.

(** C10: a feature whose check is null or undefined is passed over: the
    filter finds it unmatched without calling anything and without an
    error, and on no message is its responder called. *)
Theorem server_skips_missing_check (f : Feature U) :
  nullish (check f) = true ->
  (forall env m w, matches_feature env m f w = Ret false w) /\
  (forall m s i, features s !! i = Some f -> i ∉ fst (server m s)).
Proof.
  intros Hn.
  assert (truthy_val (check f) = false) as Hf
    by (destruct (check f) as [[]|]; first [discriminate Hn | reflexivity]).
  split.
  - intros env m w. unfold matches_feature. now rewrite Hf.
  - intros m s i Hi Hin. unfold server in Hin.
    destruct (decide (sender_type m = js "user")); [|now apply elem_of_nil in Hin].
    destruct (filter_features _ m (indexed (features s)) (world s))
      as [ms w1| |] eqn:Hfl; try (now apply elem_of_nil in Hin).
    apply forEach_trace in Hin. apply list_elem_of_fmap in Hin as ([j h] & -> & Hx).
    destruct (filter_features_sound _ _ _ _ _ _ Hfl _ Hx) as [Hl Ht].
    apply indexed_from_lookup in Hl as [_ Hl]. cbn [fst snd] in *.
    rewrite Nat.sub_0_r in Hl. congruence.
Qed.

End Dispatch.

(** ** Plugins *)

Section PluginProperties.
Context {Body : Type}.
Implicit Types (p q : Plugin Body) (api : gmap (list ascii) (Member Body)).

Lemma assign_other k v api k' : k' <> k -> assign k v api !! k' = api !! k'.
Proof.
  intros H. unfold assign. destruct (decide _); [reflexivity|].
  now rewrite lookup_insert_ne.
Qed.

Lemma assign_eq k v api : k <> js "__proto__" -> assign k v api !! k = Some v.
Proof.
  intros H. unfold assign. destruct (decide _); [contradiction|].
  apply lookup_insert_eq.
Qed.

Lemma installed_other ps api k :
  k ∉ map name ps -> installed ps api !! k = api !! k.
Proof.
  revert api. induction ps as [|q ps IH]; intros api Hk; [reflexivity|].
  cbn [installed foldl map] in *.
  fold (installed ps (assign (name q) (Wrapper (fn q)) api)).
  apply not_elem_of_cons in Hk as [Hq Hk]. rewrite IH by exact Hk.
  now apply assign_other.
Qed.

Lemma installed_lookup ps api q :
  js "__proto__" ∉ map name ps ->
  NoDup (map name ps) -> q ∈ ps ->
  installed ps api !! name q = Some (Wrapper (fn q)).
Proof.
  revert api. induction ps as [|h ps IH]; intros api Hp Hnd Hq.
  - now apply elem_of_nil in Hq.
  - cbn [map] in Hp, Hnd. apply NoDup_cons in Hnd as [Hh Hnd].
    apply not_elem_of_cons in Hp as [Hph Hp].
    cbn [installed foldl]. fold (installed ps (assign (name h) (Wrapper (fn h)) api)).
    apply elem_of_cons in Hq as [->|Hq]; [|now apply IH].
    rewrite installed_other by exact Hh. apply assign_eq. congruence.
Qed.

(** C6, as the code has it: [use] throws at the first plugin whose name is
    already a property of the public interface, be it an entry point, a
    plugin of an earlier call or an earlier plugin of this call; the
    plugins before it in the call are installed and stay so. *)
Theorem use_stops_at_duplicate pre p post api :
  api !! js "hasOwnProperty" = None ->
  js "hasOwnProperty" ∉ map name pre ->
  js "__proto__" ∉ map name pre ->
  NoDup (map name pre) ->
  (forall q, q ∈ pre -> api !! name q = None) ->
  is_Some (api !! name p) \/ name p ∈ map name pre ->
  use (pre ++ p :: post) api =
    Throw (ErrorObj (js "Duplicate plugin name '" ++ name p ++ js "'!"))
          (installed pre api) /\
  (forall q, q ∈ pre -> installed pre api !! name q = Some (Wrapper (fn q))).
Proof.
  intros Hh Hpre Hproto Hnd Hfree Hdup.
  split; [|intros q Hq; now apply installed_lookup].
  revert api Hh Hfree Hdup. induction pre as [|q pre IH]; intros api Hh Hfree Hdup.
  - destruct Hdup as [Hdup|Hdup]; [|now apply elem_of_nil in Hdup].
    cbn [app use]. unfold bind, hasOwnProperty. rewrite Hh.
    rewrite bool_decide_eq_true_2 by exact Hdup. reflexivity.
  - cbn [map] in Hpre, Hproto, Hnd. apply not_elem_of_cons in Hpre as [Hq Hpre].
    apply not_elem_of_cons in Hproto as [Hqp Hproto].
    apply NoDup_cons in Hnd as [Hq' Hnd].
    cbn [app use]. unfold bind at 1, hasOwnProperty. rewrite Hh.
    rewrite bool_decide_eq_false_2
      by (rewrite (Hfree q) by (apply elem_of_cons; now left); apply is_Some_None).
    unfold bind at 1.
    rewrite IH; [reflexivity | exact Hpre | exact Hproto | exact Hnd | | |].
    + now rewrite assign_other.
    + intros q0 Hq0. rewrite assign_other.
      * apply Hfree, elem_of_cons. now right.
      * intros E. apply Hq'. rewrite <- E. now apply list_elem_of_fmap_2.
    + destruct (decide (name q = name p)) as [E|E].
      * left. rewrite <- E, assign_eq by congruence. eauto.
      * destruct Hdup as [Hdup|Hdup].
        -- left. rewrite assign_other by congruence. exact Hdup.
        -- right. cbn [map] in Hdup. apply elem_of_cons in Hdup as [Hdup|Hdup];
             [congruence | exact Hdup].
Qed.

End PluginProperties.

(** ** Literal patterns *)

Section Literal.
Context {U : Type}.

(** With [lastIndex = 0], the check of a literal pattern returns true
    exactly when the literal occurs in the text. *)
Lemma literal_check_fresh d p (rsp : val U) c env m w :
  get_lastIndex {| pat := lits p Eps; global := true; cell := c |} w = 0 ->
  exists b w',
    call (check (literal_feature d p rsp c)) env [Obj m] w = Ret (Bool b) w' /\
    (b = true <-> occurs p (text m)).
Proof.
  intros H0. cbn [literal_feature check call pattern_check]. unfold bind, test.
  cbn [global pat]. rewrite H0.
  pose proof (exec_literal_fresh p (text m)) as Hx.
  destruct (exec (text m) (lits p Eps) 0) as [[i e]|].
  - eexists true, _. split; [reflexivity|]. split; [|reflexivity].
    intros _. apply Hx. eauto.
  - eexists false, _. split; [reflexivity|]. split; [discriminate|].
    intros Ho. apply Hx in Ho as [? Ho]. discriminate Ho.
Qed.

End Literal.

(** The literal [a.b] is found in a text that holds it and not in [axb]. *)
Example literal_a_dot_b :
  occurs (js "a.b") (js "say a.b now") /\ ~ occurs (js "a.b") (js "axb").
Proof.
  split.
  - now exists (js "say "), (js " now").
  - intros H. apply exec_literal_fresh in H as [m H]. vm_compute in H. discriminate H.
Qed.

(** C9, where the code fails it: the check of a literal pattern starts its
    search at the [lastIndex] that its previous call left.  A responder
    that throws ends the dispatch before the responder of the literal
    resets it, and on the next delivery of the same message the literal
    goes unmatched. *)
Theorem literal_check_misses_after_throw :
  exists s w1 w2 w3,
    thrower_then_literal (initial 0) = Ret tt s /\
    occurs (js "a.b") (text (from_user "a.b")) /\
    server (from_user "a.b") s = ([0], Throw (ErrorObj (js "boom")) w1) /\
    server (from_user "a.b") {| features := features s; world := w1 |} =
      ([0], Ret tt w2) /\
    server (from_user "a.b") {| features := features s; world := w2 |} =
      ([0; 1], Ret tt w3).
Proof.
  eexists _, _, _, _. split; [reflexivity|]. split; [now exists [], []|].
  split; [reflexivity|]. split; reflexivity.
Qed.

(** The same check, called twice on the same message, answers true and
    then false. *)
Example literal_check_twice :
  let f := literal_feature [] (js "a.b") (VFun counts) 0 in
  let w := grow 1 (initial_world 0) in
  exists w1 w2,
    call (check f) [] [Obj (from_user "a.b")] w = Ret (Bool true) w1 /\
    call (check f) [] [Obj (from_user "a.b")] w1 = Ret (Bool false) w2.
Proof. eexists _, _. split; reflexivity. Qed.

(** ** Help *)

Section Help.
Context {U : Type}.

Lemma feature_three_args d (c r : val U) s :
  nullish r = false ->
  feature (VData (Str d)) c r s =
  Ret tt {| features := features s ++ [{| desc := d; check := c; respond := r |}];
            world := world s |}.
Proof. intros H. unfold feature. now rewrite H. Qed.

(** C7, as the code has it: with features described by [b], the empty
    string and [a] registered in that order, then [help], then the sort of
    [listen], the registry reads: the empty description, the line of
    [/help] itself, [a], [b]; and [/help] from a user sends the line of
    [/help], then [a], then [b], joined by line feeds. *)
Theorem help_lists_itself_first (c1 r1 c2 r2 c3 r3 : val U) (w : World U) :
  nullish r1 = false -> nullish r2 = false -> nullish r3 = false ->
  (forall c, c ∈ [c1; c2; c3] -> forall d r env w',
     matches_feature env (from_user "/help")
       {| desc := d; check := c; respond := r |} w' = Ret false w') ->
  exists s w',
    with_help c1 r1 c2 r2 c3 r3 {| features := []; world := w |} = Ret tt s /\
    map desc (features s) = [[]; help_line; js "a"; js "b"] /\
    server (from_user "/help") s = ([1], Ret tt w') /\
    outbox w' =
      outbox w ++
      [{| bot_id := botId w;
          post_text := help_line ++ "010" :: js "a" ++ "010" :: js "b";
          picture_url := None |}].
Proof.
  intros H1 H2 H3 Hc. unfold with_help, bind.
  rewrite (feature_three_args _ _ _ _ H1).
  rewrite (feature_three_args _ _ _ _ H2).
  rewrite (feature_three_args _ _ _ _ H3).
  unfold help. rewrite command_three_args. unfold listen.
  cbn [features world app].
  set (sep := {| pat := ws_plus; global := true; cell := _ |}).
  set (c := length (lastIndex (grow 2 w))).
  set (fh := command_feature (js "help") _ sep (VFun help_respond) c).
  assert (desc fh = help_line) as Hd by reflexivity.
  match goal with |- context [sort_features ?l] =>
    assert (sort_features l =
            [{| desc := []; check := c2; respond := r2 |}; fh;
             {| desc := js "a"; check := c3; respond := r3 |};
             {| desc := js "b"; check := c1; respond := r1 |}]) as -> by reflexivity
  end.
  set (env := [[]; help_line; js "a"; js "b"]).
  set (m := from_user "/help").
  assert (get_lastIndex (command_regex (js "help") c) (grow 3 w) = 0) as Hget.
  { unfold get_lastIndex, c. cbn [command_regex cell].
    change (grow 3 w) with (set_lastIndex (lastIndex (grow 2 w) ++ [0]) (grow 2 w)).
    cbn [lastIndex set_lastIndex]. now rewrite list_lookup_middle. }
  assert (matches_feature env m fh (grow 3 w) =
          Ret true (put_lastIndex (command_regex (js "help") c) 5 (grow 3 w))) as Hm.
  { unfold matches_feature. change (truthy_val (check fh)) with true. cbn match.
    unfold bind, fh. rewrite command_check_call, Hget. reflexivity. }
  assert (exists w',
            call (respond fh) env [Obj m]
              (put_lastIndex (command_regex (js "help") c) 5 (grow 3 w)) =
              Ret Undefined w' /\
            outbox w' =
              outbox w ++
              [{| bot_id := botId w;
                  post_text := help_line ++ "010" :: js "a" ++ "010" :: js "b";
                  picture_url := None |}]) as (w' & Hr & Ho).
  { unfold fh. rewrite (command_respond_call _ _ _ _ _ _ _ _ [[]]) by reflexivity.
    eexists. split; reflexivity. }
  eexists _, w'. split; [reflexivity|]. split; [reflexivity|]. split; [|exact Ho].
  unfold server. cbn [features world].
  change (map desc _) with env. fold m.
  destruct (decide (sender_type m = js "user")) as [_|Hn];
    [|exfalso; now apply Hn].
  unfold indexed. cbn [indexed_from filter_features snd]. unfold bind.
  rewrite Hc by set_solver. cbn match. rewrite Hm. cbn match.
  rewrite !Hc by set_solver. unfold ret.
  apply (forEach_responded env _ [(1, fh)]).
  eapply responded_cons; [reflexivity | exact Hr | apply responded_nil].
Qed.

End Help.

(** * The properties at work *)

Ltac run_checks :=
  repeat first
    [ apply checked_nil
    | eapply (checked_call _ _ _ _ _ (Bool true)); [reflexivity | reflexivity |]
    | eapply (checked_call _ _ _ _ _ (Bool false)); [reflexivity | reflexivity |]
    | eapply checked_skip; [reflexivity |] ].

Ltac run_responders :=
  repeat first
    [ apply responded_nil
    | eapply responded_cons; [reflexivity | reflexivity |] ].

(** ** Dispatch *)

(** Three features, the second without a check. *)
Lemma server_calls_each_match_once_witness :
  let m := from_user "hello" in
  let s := after on_off_on (initial 0) in
  sender_type m = js "user" /\
  StronglySorted lt (fst (server m s)) /\
  (forall i, count_occ Nat.eq_dec (fst (server m s)) i <=
             match [true; false; true] !! i with Some true => 1 | _ => 0 end) /\
  (forall w2,
     responded (map desc (features s)) m
       (selected [true; false; true] (features s)) (world s) w2 ->
     snd (server m s) = Ret tt w2 /\
     forall i, count_occ Nat.eq_dec (fst (server m s)) i =
               match [true; false; true] !! i with Some true => 1 | _ => 0 end).
Proof.
  intros m s. split; [reflexivity|].
  apply (proj2 (server_calls_each_match_once m s) eq_refl
           [true; false; true] (world s)).
  vm_compute. run_checks.
Defined.

(** On that registry the first and the third responder run, each once. *)
Example server_on_off_on :
  server (from_user "hello") (after on_off_on (initial 0)) =
  ([0; 2], Ret tt (set_user 20 (initial_world 0))).
Proof. reflexivity. Qed.

(** A sender that is not a user reaches no responder. *)
Example server_ignores_bots :
  server {| sender_type := js "bot"; text := js "hello" |} (after on_off_on (initial 0)) =
  ([], Ret tt (initial_world 0)).
Proof. reflexivity. Qed.

(** Against C1 as stated: the three features match, the responder of the
    second throws, and the responder of the third is not called. *)
Lemma throwing_responder_counterexample :
  let m := from_user "hello" in
  let s := after counter_thrower_counter (initial 0) in
  checked (map desc (features s)) m (features s) (world s) [true; true; true] (world s) /\
  server m s = ([0; 1], Throw (ErrorObj (js "boom")) (set_user 11 (world s))) /\
  2 ∉ fst (server m s).
Proof.
  intros m s. split; [|split].
  - vm_compute. run_checks.
  - reflexivity.
  - refine (bool_decide_unpack _ _). vm_compute. exact I.
Qed.

(** Against C2 as stated: the check of the third feature returns true on
    the message of a user, and its responder is called not once but never,
    the responder of the second having thrown. *)
Lemma matched_feature_not_called_counterexample :
  let m := from_user "hello" in
  let s := after counter_thrower_counter (initial 0) in
  sender_type m = js "user" /\
  checked (map desc (features s)) m (features s) (world s) [true; true; true] (world s) /\
  [true; true; true] !! 2 = Some true /\
  count_occ Nat.eq_dec (fst (server m s)) 2 = 0.
Proof.
  intros m s. split; [reflexivity|]. split; [|split; reflexivity].
  vm_compute. run_checks.
Qed.

(** The same registry: the dispatch stops at the second feature. *)
Lemma server_stops_at_throwing_responder_witness :
  let m := from_user "hello" in
  let s := after counter_thrower_counter (initial 0) in
  server m s = ([0; 1], Throw (ErrorObj (js "boom")) (set_user 11 (world s))) /\
  (forall j, j ∈ [2] -> j ∉ fst (server m s)).
Proof.
  intros m s.
  apply (server_stops_at_throwing_responder m s [true; true; true] (world s)
           [(0, {| desc := []; check := VFun always; respond := VFun counts |})] 1
           {| desc := []; check := VFun always; respond := VFun throws_once |}
           [(2, {| desc := []; check := VFun always; respond := VFun counts |})]
           (set_user 10 (world s)) throws_once
           (ErrorObj (js "boom")) (set_user 11 (world s))).
  - reflexivity.
  - vm_compute. run_checks.
  - reflexivity.
  - vm_compute. run_responders.
  - reflexivity.
  - reflexivity.
Defined.

(** A feature without a check among features that match. *)
Lemma server_skips_missing_check_witness :
  let f := {| desc := js "off"; check := VData Null; respond := VFun counts |} in
  nullish (check f) = true /\
  (forall env m w, matches_feature env m f w = Ret false w) /\
  (forall m s i, features s !! i = Some f -> i ∉ fst (server m s)).
Proof.
  intros f. split; [reflexivity|].
  apply (server_skips_missing_check f). reflexivity.
Defined.

(** ** Commands *)

(** The command [ban], registered with a description. *)
Lemma command_check_begins_with_command_witness :
  let s := after (ban counts) (initial 0) in
  exists f x,
    features s = features (initial 0) ++ [f] /\
    get_lastIndex x (world s) = 0 /\
    forall env m w, exists b w',
      call (check f) env [Obj m] w = Ret (Bool b) w' /\
      (b = true -> begins_with_command (js "ban") (text m)) /\
      (begins_with_command (js "ban") (text m) -> get_lastIndex x w = 0 -> b = true).
Proof.
  intros s.
  apply (command_check_begins_with_command (js "ban")
           (VData (Str (js "Bans a user."))) (VFun counts) (VData Undefined)
           (initial 0) s).
  reflexivity.
Defined.

(** The command [ban] is passed over on [/banana] and runs on [/ban] and on
    [/ban extra text]. *)
Example ban_dispatch :
  let s := after (ban counts) (initial 0) in
  fst (server (from_user "/banana") s) = [] /\
  fst (server (from_user "/ban") s) = [0] /\
  fst (server (from_user "/ban extra text") s) = [0].
Proof. repeat split; reflexivity. Qed.

(** On [/ban extra text] the responder of [ban] receives [extra] and
    [text]. *)
Lemma command_respond_arguments_witness :
  let m := from_user "/ban extra text" in
  let w := initial_world [] in
  exists f x s',
    ban spy (initial []) = Ret tt s' /\
    features s' = [f] /\
    desc f = js "/ban - Bans a user." /\
    call (respond f) [] [Obj m] w =
      spy [] [Obj m; Arr [js "extra"; js "text"]] (put_lastIndex x 0 w) /\
    (trim (js " extra text") = [] -> Default <> Literal [] ->
     pieces Default (trim (js " extra text")) = [[]]).
Proof.
  intros m w.
  apply (command_respond_arguments (js "ban") (js "Bans a user.") Default spy
           (initial []) [] m (js " extra text") w).
  - reflexivity.
  - right. exists " "%char, (js "extra text"). split; reflexivity.
Defined.

(** With the separator [", "], [/ban  a, b c] yields [a] and [b c]. *)
Example command_literal_separator :
  let m := from_user "/ban  a, b c" in
  let s := after (command_with (js "ban") (js "Bans.") (Literal (js ", ")) spy)
                 (initial []) in
  exists w,
    server m s = ([0], Ret tt w) /\
    user w = [Obj m; Arr [js "a"; js "b c"]] /\
    pieces (Literal (js ", ")) (js "a, b c") = [js "a"; js "b c"].
Proof. intros m s. eexists. repeat split; reflexivity. Qed.

(** Against C3 as stated: on [/ban], where no text follows the command, the
    responder receives the array of one empty string, not the empty
    array. *)
Lemma command_no_text_counterexample :
  let m := from_user "/ban" in
  let s := after (ban spy) (initial []) in
  exists w,
    server m s = ([0], Ret tt w) /\
    user w = [Obj m; Arr [[]]] /\
    user w <> [Obj m; Arr []].
Proof.
  intros m s. eexists. split; [reflexivity|]. split; [reflexivity|]. discriminate.
Qed.

(** C4, where the code fails it: registered as [command('ban', respond)],
    the command is described by [/ban], but on [/ban extra text] its
    responder receives the ten code units of [extra text]; registered with
    a description, it receives [extra] and [text]. *)
Theorem command_two_args_splits_code_units :
  let m := from_user "/ban extra text" in
  let s2 := after (ban_two_args spy) (initial []) in
  let s3 := after (ban spy) (initial []) in
  map desc (features s2) = [js "/ban"] /\
  (exists w, server m s2 = ([0], Ret tt w) /\
             user w = [Obj m; Arr (map (fun c => [c]) (js "extra text"))]) /\
  (exists w, server m s3 = ([0], Ret tt w) /\
             user w = [Obj m; Arr [js "extra"; js "text"]]).
Proof.
  intros m s2 s3. split; [reflexivity|].
  split; eexists; split; reflexivity.
Qed.

(** With a description, [random] registers its command. *)
Example random_with_description :
  map desc (features (after (random (js "roll") (VData (Str (js "Rolls.")))
                                    (VData (Arr [js "x"; js "y"; js "z"])))
                            (initial 0))) =
  [js "/roll - Rolls."].
Proof. reflexivity. Qed.

(** ** Plugins *)

(** Of three plugins the second collides with the entry point [send]. *)
Lemma use_stops_at_duplicate_witness :
  let a := {| name := js "greet"; fn := 1 |} in
  let b := {| name := js "send"; fn := 2 |} in
  let c := {| name := js "later"; fn := 3 |} in
  use [a; b; c] module_exports =
    Throw (ErrorObj (js "Duplicate plugin name 'send'!")) (installed [a] module_exports) /\
  (forall q, q ∈ [a] -> installed [a] module_exports !! name q = Some (Wrapper (fn q))).
Proof.
  intros a b c.
  apply (use_stops_at_duplicate [a] b [c] module_exports).
  - reflexivity.
  - refine (bool_decide_unpack _ _). vm_compute. exact I.
  - refine (bool_decide_unpack _ _). vm_compute. exact I.
  - refine (bool_decide_unpack _ _). vm_compute. exact I.
  - intros q Hq. apply list_elem_of_singleton in Hq. subst q. reflexivity.
  - left. exists Builtin. reflexivity.
Defined.

(** Against C6 as stated: the second plugin collides with the entry point
    [send]; [use] throws, and the first plugin of the call is installed
    all the same. *)
Lemma use_partial_installation_counterexample :
  let a := {| name := js "greet"; fn := 1 |} in
  let b := {| name := js "send"; fn := 2 |} in
  exists api,
    use [a; b] module_exports =
      Throw (ErrorObj (js "Duplicate plugin name 'send'!")) api /\
    module_exports (Body := nat) !! js "greet" = None /\
    api !! js "greet" = Some (Wrapper 1) /\
    api <> module_exports.
Proof.
  intros a b. eexists. split; [reflexivity|]. split; [reflexivity|].
  split; [reflexivity|]. intros H.
  apply (f_equal (fun api => api !! js "greet")) in H. discriminate H.
Qed.

(** ** Help *)

(** Three features without a check, [help] and [listen], then [/help]. *)
Lemma help_lists_itself_first_witness :
  exists s w',
    b_empty_a_help (initial 0) = Ret tt s /\
    map desc (features s) = [[]; help_line; js "a"; js "b"] /\
    server (from_user "/help") s = ([1], Ret tt w') /\
    outbox w' =
      [{| bot_id := None;
          post_text := help_line ++ "010" :: js "a" ++ "010" :: js "b";
          picture_url := None |}].
Proof.
  apply (help_lists_itself_first (VData Null) (VFun counts) (VData Null)
           (VFun counts) (VData Null) (VFun counts) (initial_world 0)).
  - reflexivity.
  - reflexivity.
  - reflexivity.
  - intros c Hc d r env w'.
    repeat (apply elem_of_cons in Hc as [->|Hc]; [reflexivity|]).
    now apply elem_of_nil in Hc.
Defined.

(** Against C7 as stated: the text that [/help] sends is not [a], a line
    feed, [b]: the line of [/help] comes first. *)
Lemma help_text_counterexample :
  let s := after b_empty_a_help (initial 0) in
  exists w,
    server (from_user "/help") s = ([1], Ret tt w) /\
    map post_text (outbox w) =
      [help_line ++ "010" :: js "a" ++ "010" :: js "b"] /\
    map post_text (outbox w) <> [js "a" ++ "010" :: js "b"].
Proof.
  intros s. eexists. split; [reflexivity|]. split; [reflexivity|]. discriminate.
Qed.

(** * Further properties *)

(** ** [quote] *)

(** A quoted string, read as a pattern, matches at an index exactly when
    the string itself stands there, and the match ends behind it. *)
Theorem quote_matches_itself str :
  exists r,
    parse (quote str) = Some r /\
    has_group r = false /\
    forall text i,
      mt text r Some i =
      if decide (take (length str) (drop i text) = str)
      then Some (i + length str) else None.
Proof.
  exists (lits str Eps). split; [apply parse_quote|]. split; [apply lits_no_group|].
  intros text i. apply mt_literal.
Qed.

(** Two strings that [quote] maps to the same source are the same string. *)
Theorem quote_injective a b : quote a = quote b -> a = b.
Proof.
  revert b. induction a as [|x a IH]; intros [|y b]; cbn [quote].
  - reflexivity.
  - destruct (is_meta y); discriminate.
  - destruct (is_meta x); discriminate.
  - destruct (is_meta x) eqn:Hx, (is_meta y) eqn:Hy; intros H; inversion H; subst.
    + f_equal. now apply IH.
    + vm_compute in Hy. discriminate Hy.
    + vm_compute in Hx. discriminate Hx.
    + f_equal. now apply IH.
Qed.

(** ** The order of the descriptions and [listen] *)

Lemma N_of_ascii_inj x y : N_of_ascii x = N_of_ascii y -> x = y.
Proof.
  intros H. rewrite <- (ascii_N_embedding x), <- (ascii_N_embedding y). now rewrite H.
Qed.

Lemma str_lt_false_cons x a y b :
  str_lt (y :: b) (x :: a) = false <->
  (N_of_ascii x < N_of_ascii y)%N \/ (x = y /\ str_lt b a = false).
Proof.
  cbn [str_lt]. destruct (Ascii.eqb y x) eqn:E.
  - apply Ascii.eqb_eq in E. subst y. split; [now right | intros [H|[_ H]]; [lia | exact H]].
  - apply Ascii.eqb_neq in E. rewrite N.ltb_ge. split.
    + intros H. left. apply N.le_lteq in H as [H|H]; [exact H|].
      apply N_of_ascii_inj in H. congruence.
    + intros [H|[H _]]; [lia | congruence].
Qed.

Lemma str_le_trans a : forall b c,
  str_lt b a = false -> str_lt c b = false -> str_lt c a = false.
Proof.
  induction a as [|x a IH]; intros b c Hab Hbc.
  - destruct c; reflexivity.
  - destruct b as [|y b]; [discriminate Hab|].
    destruct c as [|z c]; [destruct b; discriminate Hbc|].
    apply str_lt_false_cons in Hab, Hbc. apply str_lt_false_cons.
    destruct Hab as [Hab|[-> Hab]], Hbc as [Hbc|[-> Hbc]];
      [left; lia | left; exact Hab | left; exact Hbc | right; split; [reflexivity | eauto]].
Qed.

Lemma str_lt_asym a : forall b, str_lt a b = true -> str_lt b a = false.
Proof.
  induction a as [|x a IH]; intros [|y b] H; try reflexivity; try discriminate H.
  cbn [str_lt] in *. destruct (Ascii.eqb x y) eqn:E.
  - apply Ascii.eqb_eq in E. subst y. rewrite Ascii.eqb_refl. now apply IH.
  - rewrite Ascii.eqb_sym, E. apply N.ltb_lt in H. apply N.ltb_ge. lia.
Qed.

Lemma str_lt_irrefl a : str_lt a a = false.
Proof. induction a as [|x a IH]; [reflexivity|]. cbn. now rewrite Ascii.eqb_refl. Qed.

Section Listen.
Context {U : Type}.
Implicit Types (x y : Feature U) (l : list (Feature U)).

Lemma insert_feature_perm x l : insert_feature x l ≡ₚ x :: l.
Proof.
  induction l as [|y l IH]; [reflexivity|]. cbn [insert_feature].
  destruct (str_lt (desc y) (desc x)); [|reflexivity].
  rewrite IH. apply perm_swap.
Qed.

Lemma insert_feature_Forall (P : Feature U -> Prop) x l :
  P x -> Forall P l -> Forall P (insert_feature x l).
Proof.
  intros Hx Hl. induction Hl as [|y l Hy Hl IH]; cbn [insert_feature].
  - now constructor.
  - destruct (str_lt (desc y) (desc x)); constructor; auto.
Qed.

Lemma insert_feature_sorted x l :
  StronglySorted desc_le l -> StronglySorted desc_le (insert_feature x l).
Proof.
  induction 1 as [|y l Hs IH Hy]; cbn [insert_feature].
  - repeat constructor.
  - destruct (str_lt (desc y) (desc x)) eqn:E.
    + constructor; [exact IH|]. apply insert_feature_Forall; [|exact Hy].
      now apply str_lt_asym.
    + constructor; [now constructor|]. constructor; [exact E|].
      eapply Forall_impl; [exact Hy|]. intros z Hz. unfold desc_le in *.
      now apply (str_le_trans _ (desc y)).
Qed.

Lemma insert_feature_filter d x l :
  filter (fun f => desc f = d) (insert_feature x l) =
  filter (fun f => desc f = d) (x :: l).
Proof.
  induction l as [|y l IH]; [reflexivity|]. cbn [insert_feature].
  destruct (str_lt (desc y) (desc x)) eqn:E; [|reflexivity].
  rewrite filter_cons, IH, !filter_cons.
  destruct (decide (desc y = d)) as [Hy|Hy], (decide (desc x = d)) as [Hx|Hx];
    try reflexivity.
  rewrite Hy, Hx, str_lt_irrefl in E. discriminate E.
Qed.

(** [listen] keeps every feature and the world, and leaves the registry in
    the order of the descriptions. *)
Theorem listen_sorts (s : Sys U) :
  exists s',
    listen s = Ret tt s' /\
    world s' = world s /\
    features s' ≡ₚ features s /\
    StronglySorted desc_le (features s').
Proof.
  eexists. split; [reflexivity|]. split; [reflexivity|]. cbn [features]. split.
  - induction (features s) as [|x l IH]; [reflexivity|].
    cbn [sort_features foldr]. fold (sort_features l).
    now rewrite insert_feature_perm, IH.
  - induction (features s) as [|x l IH]; [constructor|].
    cbn [sort_features foldr]. now apply insert_feature_sorted.
Qed.

(** The sort of [listen] is stable: the features of one description stay in
    the order of their registration. *)
Theorem listen_stable (s : Sys U) (d : list ascii) :
  exists s',
    listen s = Ret tt s' /\
    filter (fun f => desc f = d) (features s') =
    filter (fun f => desc f = d) (features s).
Proof.
  eexists. split; [reflexivity|]. cbn [features].
  induction (features s) as [|x l IH]; [reflexivity|].
  cbn [sort_features foldr]. fold (sort_features l).
  now rewrite insert_feature_filter, !filter_cons, IH.
Qed.

End Listen.

(** ** Literal patterns and the [lastIndex] of a pattern *)

Section Patterns.
Context {U : Type}.
Implicit Types (w : World U) (s : Sys U).

Lemma get_put_zero (x : RegExp) w : get_lastIndex x (put_lastIndex x 0 w) = 0.
Proof.
  unfold get_lastIndex, put_lastIndex. cbn [lastIndex set_lastIndex].
  destruct (decide (cell x < length (lastIndex w))) as [H|H].
  - now rewrite list_lookup_insert_eq.
  - rewrite list_insert_ge by lia. rewrite lookup_ge_None_2 by lia. reflexivity.
Qed.

Lemma get_fresh_cell (x : RegExp) w :
  cell x = length (lastIndex w) ->
  get_lastIndex x (set_lastIndex (lastIndex w ++ [0]) w) = 0.
Proof.
  intros H. unfold get_lastIndex. cbn [lastIndex set_lastIndex].
  now rewrite H, list_lookup_middle.
Qed.

(** [pattern(desc, 'literal', respond)] registers a feature under [desc]
    whose check, as registered, accepts exactly the texts in which the
    literal occurs; [pattern('literal', respond)] is the same with the
    empty description. *)
Theorem pattern_literal_check d p (rsp : val U) s :
  nullish rsp = false ->
  (exists f s',
     pattern (VData (Str d)) (VData (Str p)) rsp s = Ret tt s' /\
     features s' = features s ++ [f] /\
     desc f = d /\
     forall env m, exists b w',
       call (check f) env [Obj m] (world s') = Ret (Bool b) w' /\
       (b = true <-> occurs p (text m))) /\
  pattern (VData (Str p)) rsp (VData Undefined) s =
  pattern (VData (Str [])) (VData (Str p)) rsp s.
Proof.
  intros Hr. split.
  - eexists _, _. split; [now apply pattern_literal|]. split; [reflexivity|].
    split; [reflexivity|]. intros env m.
    apply literal_check_fresh. now apply get_fresh_cell.
  - unfold pattern. cbn [nullish]. now rewrite Hr.
Qed.

Lemma exec_all_literal p text fuel : forall li,
  Forall (fun m => substring text (fst m) (snd m) = p)
         (exec_all text (lits p Eps) fuel li).
Proof.
  induction fuel as [|fuel IH]; intros li; cbn [exec_all]; [constructor|].
  destruct (exec text (lits p Eps) li) as [[i e]|] eqn:He; [|constructor].
  constructor; [|apply IH]. cbn [fst snd]. unfold exec in He.
  destruct (Nat.ltb (length text) li); [discriminate|].
  apply search_Some in He as [_ He]. rewrite mt_literal in He.
  destruct (decide (take (length p) (drop i text) = p)) as [Hp|]; [|discriminate].
  inversion He; subst. unfold substring.
  replace (i + length p - i) with (length p) by lia. exact Hp.
Qed.

Lemma map_constant {A B} (f : A -> B) (b : B) (l : list A) :
  Forall (fun a => f a = b) l -> map f l = replicate (length l) b.
Proof. induction 1 as [|a l Ha _ IH]; cbn; [reflexivity | now rewrite Ha, IH]. Qed.

(** The responder of a literal pattern is called with the array of the
    occurrences found, each a copy of the literal, when the literal occurs
    in the text, and with [null] when it does not. *)
Theorem literal_respond_copies d p (rsp : val U) s :
  nullish rsp = false ->
  exists f x s',
    pattern (VData (Str d)) (VData (Str p)) rsp s = Ret tt s' /\
    features s' = features s ++ [f] /\
    forall env m w, exists v,
      call (respond f) env [Obj m] w =
        call rsp env [Obj m; v] (put_lastIndex x 0 w) /\
      ((occurs p (text m) /\ exists k, v = Arr (replicate (S k) p)) \/
       (~ occurs p (text m) /\ v = Null)).
Proof.
  intros Hr. eexists _, _, _. split; [now apply pattern_literal|].
  split; [reflexivity|]. intros env m w.
  cbn [literal_feature respond call pattern_respond]. unfold bind, str_match.
  cbn [global pat].
  pose proof (exec_literal_fresh p (text m)) as Hx.
  pose proof (exec_all_literal p (text m) (S (S (length (text m)))) 0) as Hall.
  fold (matches (text m) (lits p Eps)) in Hall.
  assert (matches (text m) (lits p Eps) = [] <-> exec (text m) (lits p Eps) 0 = None) as Hnil.
  { unfold matches. cbn [exec_all].
    destruct (exec (text m) (lits p Eps) 0) as [[i e]|]; split; congruence. }
  destruct (matches (text m) (lits p Eps)) as [|m0 ms] eqn:Hms.
  - exists Null. split; [reflexivity|]. right. split; [|reflexivity].
    intros Ho. apply Hx in Ho as [m' Ho]. rewrite (proj1 Hnil eq_refl) in Ho.
    discriminate Ho.
  - eexists. split; [reflexivity|]. left. split.
    + apply Hx. destruct (exec (text m) (lits p Eps) 0) as [m'|]; [eauto|].
      now pose proof (proj2 Hnil eq_refl).
    + exists (length ms). now rewrite (map_constant _ p _ Hall).
Qed.

Lemma pattern_check_false_resets (x : RegExp) env m w w' :
  global x = true ->
  pattern_check (U := U) (VData (Rx x)) env [Obj m] w = Ret (Bool false) w' ->
  get_lastIndex x w' = 0.
Proof.
  intros Hg. cbn [pattern_check]. unfold bind, test. rewrite Hg.
  destruct (exec (text m) (pat x) (get_lastIndex x w)) as [[i e]|];
    unfold ret; intros H; inversion H. apply get_put_zero.
Qed.

Lemma pattern_respond_resets (x : RegExp) (rsp : val U) env m w v w' :
  global x = true -> keeps_reset x rsp ->
  pattern_respond (VData (Rx x)) rsp env [Obj m] w = Ret v w' ->
  get_lastIndex x w' = 0.
Proof.
  intros Hg Hk. cbn [pattern_respond]. unfold bind, str_match. rewrite Hg.
  destruct (matches (text m) (pat x)); intros H;
    apply (Hk _ _ _ _ _ (get_put_zero x w) H).
Qed.

(** A pattern with the [g] flag is ready for the next message after every
    completed round: a check that answers false leaves its [lastIndex] at
    0, and so does its responder when it returns, provided the callback of
    the user does not move it. *)
Theorem pattern_round_resets (x : RegExp) (rsp : val U) env m w :
  global x = true ->
  keeps_reset x rsp ->
  (forall w', pattern_check (VData (Rx x)) env [Obj m] w = Ret (Bool false) w' ->
              get_lastIndex x w' = 0) /\
  (forall v w', pattern_respond (VData (Rx x)) rsp env [Obj m] w = Ret v w' ->
                get_lastIndex x w' = 0).
Proof.
  intros Hg Hk. split.
  - intros w'. now apply pattern_check_false_resets.
  - intros v w'. now apply pattern_respond_resets.
Qed.

(** The same for a command registered with a description: its pattern is
    made with [lastIndex] 0, and a check that answers false, or a responder
    that returns, leaves it at 0, where the next check answers by the text
    alone. *)
Theorem command_round_resets name d sp (r : Fn U) s :
  exists f x s',
    command_with name d sp r s = Ret tt s' /\
    features s' = features s ++ [f] /\
    get_lastIndex x (world s') = 0 /\
    forall env m w,
      (forall w', call (check f) env [Obj m] w = Ret (Bool false) w' ->
                  get_lastIndex x w' = 0) /\
      (keeps_reset x (VFun r) ->
       forall v w', call (respond f) env [Obj m] w = Ret v w' ->
                    get_lastIndex x w' = 0).
Proof.
  destruct (command_with_registers name d sp r s) as (c & n & Hreg).
  eexists _, (command_regex name _), _. split; [exact Hreg|].
  split; [reflexivity|]. split.
  { cbn [world]. change (grow (S n) (world s))
      with (set_lastIndex (lastIndex (grow n (world s)) ++ [0]) (grow n (world s))).
    now apply get_fresh_cell. }
  intros env m w. split.
  - intros w'. now apply pattern_check_false_resets.
  - intros Hk v w'. apply pattern_respond_resets; [reflexivity|].
    intros env' args w0 v0 w0' H0. destruct args as [|[] args]; try discriminate.
    cbn [call command_respond]. unfold bind, str_replace, str_split.
    cbn [global command_regex].
    destruct (split _ _); [|discriminate]. unfold ret.
    apply Hk, get_put_zero.
Qed.

End Patterns.

(** ** Registration *)

Section Frame.
Context {U : Type}.
Implicit Types (s : Sys U).

Lemma in_world_features_throw {A} (c : M (World U) A) s e s1 :
  in_world c s = Throw e s1 -> features s1 = features s.
Proof. unfold in_world. destruct (c (world s)); intros H; inversion H; reflexivity. Qed.

Lemma new_RegExp_never_throws (v : val U) w e w' : new_RegExp v w <> Throw e w'.
Proof.
  unfold new_RegExp. destruct v as [[]|]; cbn [source_of];
    repeat match goal with
           | |- context [match ?b with true => _ | false => _ end] => destruct b
           | |- context [parse ?src] => destruct (parse src)
           end; discriminate.
Qed.

Lemma feature_adds (a b c : val U) : adds_one_or_none (feature a b c).
Proof.
  intros s. unfold feature.
  destruct (nullish c); [cbn; eauto|].
  destruct a as [[]|]; cbn; eauto.
Qed.

Lemma pattern_adds (a b c : val U) : adds_one_or_none (pattern a b c).
Proof.
  intros s. unfold pattern.
  assert (forall d (p r : val U) s0,
            match (bind (ret p) (fun p => feature d (VFun (pattern_check p))
                                            (VFun (pattern_respond p r)))) s0 with
            | Ret _ s' => exists f, features s' = features s0 ++ [f]
            | Throw _ s' => features s' = features s0
            | Unmodelled => True
            end) as Hplain.
  { intros d p r s0. unfold bind, ret. apply feature_adds. }
  assert (forall d t r,
            match (bind (x <- in_world (new_RegExp (VData (Str (quote t)))) ;;
                         ret (VData (Rx x)))
                        (fun p => feature d (VFun (pattern_check p))
                                    (VFun (pattern_respond p r)))) s with
            | Ret _ s' => exists f, features s' = features s ++ [f]
            | Throw _ s' => features s' = features s
            | Unmodelled => True
            end) as Hstr.
  { intros d t r. unfold bind, in_world. rewrite new_RegExp_quote. unfold ret.
    match goal with |- context [feature d ?c ?r0 ?s0] =>
      exact (feature_adds d c r0 s0) end. }
  destruct (nullish c).
  - destruct a as [[]|]; first [apply Hstr | apply Hplain].
  - destruct b as [[]|]; first [apply Hstr | apply Hplain].
Qed.

Lemma command_Throw name (dsc sep rsp : val U) s e s' :
  command name dsc sep rsp s = Throw e s' -> features s' = features s.
Proof.
  unfold command. unfold bind at 1.
  destruct (in_world _ s) as [[[d sp] r] s1|e1 s1|] eqn:E1; try discriminate.
  - apply in_world_features in E1. unfold bind at 1.
    destruct (in_world _ s1) as [sepx s2|e2 s2|] eqn:E2; try discriminate.
    + unfold bind, in_world. rewrite new_RegExp_command. unfold pattern.
      cbn [nullish]. unfold bind, ret, feature. cbn [nullish]. discriminate.
    + intros H. inversion H; subst. apply in_world_features_throw in E2. congruence.
  - intros H. inversion H; subst. now apply in_world_features_throw in E1.
Qed.

Lemma command_adds name (a b c : val U) : adds_one_or_none (command name a b c).
Proof.
  intros s. destruct (command name a b c s) as [[] s'|e s'|] eqn:E; [| |exact I].
  - apply command_Ret in E as (d & sepx & r & w1 & ->). eauto.
  - now apply command_Throw in E.
Qed.

(** No entry point removes or moves a feature: [feature], [pattern],
    [command], [random] and [help] add one feature at the end of the
    registry when they return, and leave the registry as it is when they
    throw. *)
Theorem registration_adds_one_or_none name (a b c : val U) :
  adds_one_or_none (feature a b c) /\
  adds_one_or_none (pattern a b c) /\
  adds_one_or_none (command name a b c) /\
  adds_one_or_none (random name a b) /\
  adds_one_or_none (help (U := U)).
Proof.
  split; [apply feature_adds|]. split; [apply pattern_adds|].
  split; [apply command_adds|]. split.
  - unfold random. destruct (nullish b); apply command_adds.
  - apply command_adds.
Qed.

(** In the forms of [command] that take a description, a description that
    is not a string makes [command] throw a [TypeError] before anything is
    registered. *)
Theorem command_description_not_string name (dsc sep rsp : val U) s :
  nullish rsp = false \/ nullish sep = false ->
  (forall d, dsc <> VData (Str d)) ->
  exists s', command name dsc sep rsp s = Throw TypeError s' /\
             features s' = features s.
Proof.
  intros Hform Hd.
  assert (forall w, trim_of dsc w = Throw TypeError w) as Ht.
  { intros w. destruct dsc as [[]|]; try reflexivity. now contradiction (Hd s0). }
  unfold command. unfold bind at 1. unfold in_world at 1.
  destruct (nullish rsp) eqn:Hr.
  - destruct Hform as [Hf|Hs]; [discriminate|]. rewrite Hs.
    unfold bind, alloc. rewrite Ht. eexists. split; reflexivity.
  - unfold bind. rewrite Ht. eexists. split; reflexivity.
Qed.

End Frame.

(** ** More on the dispatcher *)

Section Checks.
Context {U : Type}.
Implicit Types (w : World U) (f : Feature U) (s : Sys U).

Lemma filter_features_check_throws env m pre f post w bs w1 e w2 :
  checked env m pre w bs w1 ->
  truthy_val (check f) = true ->
  call (check f) env [Obj m] w1 = Throw e w2 ->
  forall i, filter_features env m (indexed_from i (pre ++ f :: post)) w = Throw e w2.
Proof.
  intros Hc Hf He.
  induction Hc as [w | h fs w bs w' Hh _ IH | h fs w v w0 bs w' Hh Hcall _ IH];
    intros i; cbn [app indexed_from filter_features snd]; unfold bind, matches_feature.
  - rewrite Hf. unfold bind. now rewrite He.
  - rewrite Hh. unfold ret at 1. now rewrite IH.
  - rewrite Hh. unfold bind. rewrite Hcall. unfold ret at 1. now rewrite IH.
Qed.

(** Every check runs before any responder: when a check throws, the
    dispatch ends with its exception and no responder has been called, not
    even those of the features that the earlier checks accepted. *)
Theorem server_check_throws m s pre f post bs w1 e w2 :
  sender_type m = js "user" ->
  features s = pre ++ f :: post ->
  checked (map desc (features s)) m pre (world s) bs w1 ->
  truthy_val (check f) = true ->
  call (check f) (map desc (features s)) [Obj m] w1 = Throw e w2 ->
  server m s = ([], Throw e w2).
Proof.
  intros Hu Hfs Hc Hf He. unfold server.
  destruct (decide (sender_type m = js "user")); [|contradiction].
  unfold indexed. rewrite Hfs at 2.
  now rewrite (filter_features_check_throws _ _ _ _ _ _ _ _ _ _ Hc Hf He 0).
Qed.

(** [feature(desc, callback)] takes the description for the check and the
    callback for the responder: the feature is registered without a
    description, and from then on every message of a user on which the
    checks before it return ends in a [TypeError], no responder called. *)
Theorem feature_description_then_callback d (c : Fn U) s m :
  d <> [] ->
  exists f s',
    feature (VData (Str d)) (VFun c) (VData Undefined) s = Ret tt s' /\
    features s' = features s ++ [f] /\
    desc f = [] /\ check f = VData (Str d) /\ respond f = VFun c /\
    (sender_type m = js "user" ->
     forall bs w1,
       checked (map desc (features s')) m (features s) (world s) bs w1 ->
       server m s' = ([], Throw TypeError w1)).
Proof.
  intros Hd. eexists _, _. split; [reflexivity|]. split; [reflexivity|].
  split; [reflexivity|]. split; [reflexivity|]. split; [reflexivity|].
  intros Hu bs w1 Hc. unfold server.
  destruct (decide (sender_type m = js "user")); [|contradiction].
  unfold indexed. cbn [features world] in *.
  rewrite (filter_features_check_throws _ _ _ _ [] _ _ _ TypeError w1 Hc);
    [reflexivity | | reflexivity].
  cbn. destruct d; [congruence | reflexivity].
Qed.

Lemma selected_all {A} (l : list A) : selected (replicate (length l) true) l = l.
Proof. induction l as [|x l IH]; cbn; [reflexivity | now rewrite IH]. Qed.

(** The registry is not a set: a feature registered [n] times has its
    responder called [n] times on a message that its check accepts. *)
Theorem server_calls_every_copy f (c g : Fn U) (h : World U -> World U) n m w :
  check f = VFun c ->
  respond f = VFun g ->
  (forall env w', c env [Obj m] w' = Ret (Bool true) w') ->
  (forall env w', g env [Obj m] w' = Ret Undefined (h w')) ->
  sender_type m = js "user" ->
  server m {| features := replicate n f; world := w |} =
  (seq 0 n, Ret tt (Nat.iter n h w)).
Proof.
  intros Hc Hg Hct Hgt Hu. unfold server.
  destruct (decide (sender_type m = js "user")); [|contradiction].
  cbn [features world]. set (env := map desc (replicate n f)).
  assert (checked env m (replicate n f) w (replicate n true) w) as Hchecked.
  { subst env. generalize (map desc (replicate n f)). intros env.
    clear - Hc Hct. induction n as [|n IH]; [constructor|]. cbn [replicate].
    apply (checked_call env m f _ w (Bool true) w); [now rewrite Hc | | exact IH].
    rewrite Hc. apply Hct. }
  assert (forall w0, responded env m (replicate n f) w0 (Nat.iter n h w0)) as Hresp.
  { subst env. generalize (map desc (replicate n f)). intros env.
    clear - Hg Hgt. induction n as [|n IH]; intros w0; [constructor|].
    cbn [replicate]. rewrite Nat.iter_succ_r.
    eapply responded_cons; [exact Hg | apply Hgt | apply IH]. }
  unfold indexed. rewrite (filter_features_checked _ _ _ _ _ _ Hchecked 0).
  assert (selected (replicate n true) (indexed_from 0 (replicate n f)) =
          indexed_from 0 (replicate n f)) as ->.
  { assert (length (indexed_from 0 (replicate n f)) = n) as Hl.
    { clear. generalize 0. induction n as [|n IH]; intros i; [reflexivity|].
      cbn. now rewrite IH. }
    remember (indexed_from 0 (replicate n f)) as l eqn:El. clear El.
    rewrite <- Hl. apply selected_all. }
  rewrite (forEach_responded _ _ _ w (Nat.iter n h w)).
  - f_equal. clear. generalize 0. induction n as [|n IH]; intros i; [reflexivity|].
    cbn. now rewrite IH.
  - assert (forall i, map snd (indexed_from i (replicate n f)) = replicate n f) as ->.
    { clear. induction n as [|n IH]; intros i; [reflexivity|]. cbn. now rewrite IH. }
    apply Hresp.
Qed.

(** The listener answers by the method alone, and a responder is called
    only for a POST from a user, on a registered feature whose check is
    set. *)
Theorem on_request_gate method m s :
  (method = js "POST" ->
   on_request method m s = ({| status := 200; answer := js "OK" |}, server m s)) /\
  (method <> js "POST" ->
   on_request method m s =
     ({| status := 400; answer := js "Invalid request method!" |},
      ([], Ret tt (world s)))) /\
  (forall i, i ∈ fst (snd (on_request method m s)) ->
     method = js "POST" /\ sender_type m = js "user" /\
     exists f, features s !! i = Some f /\ truthy_val (check f) = true).
Proof.
  unfold on_request. destruct (decide (method = js "POST")) as [Hm|Hm].
  - split; [reflexivity|]. split; [contradiction|]. cbn [snd]. intros i Hi.
    split; [exact Hm|]. unfold server in Hi.
    destruct (decide (sender_type m = js "user")) as [Hu|]; [|now apply elem_of_nil in Hi].
    split; [exact Hu|].
    destruct (filter_features _ m (indexed (features s)) (world s))
      as [ms w1| |] eqn:Hfl; try (now apply elem_of_nil in Hi).
    apply forEach_trace in Hi. apply list_elem_of_fmap in Hi as ([j h] & -> & Hx).
    destruct (filter_features_sound _ _ _ _ _ _ Hfl _ Hx) as [Hl Ht].
    apply indexed_from_lookup in Hl as [_ Hl]. cbn [fst snd] in *.
    rewrite Nat.sub_0_r in Hl. eauto.
  - split; [contradiction|]. split; [reflexivity|]. cbn [snd fst]. intros i Hi.
    now apply elem_of_nil in Hi.
Qed.

End Checks.

(** ** More on plugins *)

Section MorePlugins.
Context {Body : Type}.
Implicit Types (p q : Plugin Body) (api : gmap (list ascii) (Member Body)).

(** [use] never replaces or removes a member of the public interface:
    whether it returns or throws, every name that was a member is the
    member it was. *)
Theorem use_keeps_members ps : forall api,
  match use ps api with
  | Ret _ api' | Throw _ api' =>
      forall k, is_Some (api !! k) -> api' !! k = api !! k
  | Unmodelled => True
  end.
Proof.
  induction ps as [|p ps IH]; intros api; [now cbn|].
  cbn [use]. unfold bind at 1, hasOwnProperty.
  destruct (api !! js "hasOwnProperty"); [exact I|].
  destruct (bool_decide (is_Some (api !! name p))) eqn:Hdup; [now cbn|].
  apply bool_decide_eq_false_1 in Hdup. unfold bind.
  specialize (IH (assign (name p) (Wrapper (fn p)) api)).
  destruct (use ps _) as [[] api'|e api'|]; [| |exact I];
    intros k Hk;
    (assert (k <> name p) as Hne by (intros ->; contradiction));
    rewrite IH by (now rewrite assign_other); now apply assign_other.
Qed.

(** With names that are new, distinct, and neither [hasOwnProperty] nor
    [__proto__], [use] returns with every plugin of the call installed
    under its name. *)
Theorem use_installs_all ps api :
  api !! js "hasOwnProperty" = None ->
  js "hasOwnProperty" ∉ map name ps ->
  js "__proto__" ∉ map name ps ->
  NoDup (map name ps) ->
  (forall q, q ∈ ps -> api !! name q = None) ->
  exists api',
    use ps api = Ret tt api' /\
    (forall q, q ∈ ps -> api' !! name q = Some (Wrapper (fn q))) /\
    (forall k, k ∉ map name ps -> api' !! k = api !! k).
Proof.
  intros Hh Hhp Hproto Hnd Hfree. exists (installed ps api).
  split; [|split; [intros q Hq; now apply installed_lookup
                  | intros k Hk; now apply installed_other]].
  revert api Hh Hfree. induction ps as [|q ps IH]; intros api Hh Hfree; [reflexivity|].
  cbn [map] in Hhp, Hproto, Hnd. apply not_elem_of_cons in Hhp as [Hq Hhp].
  apply not_elem_of_cons in Hproto as [Hqp Hproto].
  apply NoDup_cons in Hnd as [Hq' Hnd].
  cbn [use]. unfold bind at 1, hasOwnProperty. rewrite Hh.
  rewrite bool_decide_eq_false_2
    by (rewrite (Hfree q) by (apply elem_of_cons; now left); apply is_Some_None).
  unfold bind at 1. rewrite IH; [reflexivity | exact Hhp | exact Hproto | exact Hnd | |].
  - now rewrite assign_other.
  - intros q0 Hq0. rewrite assign_other.
    + apply Hfree, elem_of_cons. now right.
    + intros E. apply Hq'. rewrite <- E. now apply list_elem_of_fmap_2.
Qed.

End MorePlugins.

(** ** [random] and [send] *)

Section Sending.
Context {U : Type}.
Implicit Types (w : World U) (s : Sys U).

Lemma random_respond_array xs env args w :
  xs <> [] ->
  exists i x,
    xs !! i = Some x /\
    (forall d ds, dice w = d :: ds -> i = d mod length xs) /\
    exists w',
      random_respond (U := U) (VData (Arr xs)) env args w = Ret Undefined w' /\
      outbox w' = outbox w ++ [post_of x w].
Proof.
  intros Hxs. assert (0 < length xs) as Hlen by (destruct xs; [congruence | cbn; lia]).
  unfold random_respond, bind, random_index.
  destruct (dice w) as [|d ds] eqn:Hd.
  - destruct (lookup_lt_is_Some_2 xs 0 Hlen) as [x Hx]. exists 0, x.
    split; [exact Hx|]. split; [discriminate|]. unfold ret. rewrite Hx.
    eexists. split; reflexivity.
  - replace (Nat.eqb (length xs) 0) with false by (symmetry; apply Nat.eqb_neq; lia).
    assert (d mod length xs < length xs) as Hi by (apply Nat.mod_upper_bound; lia).
    destruct (lookup_lt_is_Some_2 xs _ Hi) as [x Hx]. exists (d mod length xs), x.
    split; [exact Hx|]. split; [intros d' ds' H; now inversion H|].
    unfold ret. rewrite Hx. eexists. split; reflexivity.
Qed.

(** The command of [random] with an array that is not empty answers every
    call of its responder with one request, whose text is a candidate of
    the array, trimmed; and every candidate is sent for some outcome of
    [Math.random]. *)
Theorem random_sends_candidate name d xs s :
  xs <> [] ->
  exists f s',
    random name (VData (Str d)) (VData (Arr xs)) s = Ret tt s' /\
    features s' = features s ++ [f] /\
    (forall env m w, exists x w',
       x ∈ xs /\
       call (respond f) env [Obj m] w = Ret Undefined w' /\
       outbox w' = outbox w ++ [post_of x w]) /\
    (forall i x env m w ds, xs !! i = Some x -> dice w = i :: ds ->
       exists w',
         call (respond f) env [Obj m] w = Ret Undefined w' /\
         outbox w' = outbox w ++ [post_of x w]).
Proof.
  intros Hxs. unfold random. cbn [nullish]. rewrite command_three_args.
  eexists _, _. split; [reflexivity|]. split; [reflexivity|]. split.
  - intros env m w.
    rewrite (command_respond_call _ _ _ _ _ _ _ _
               (words (trim (replace_all (text m) (command_re name)))))
      by apply split_ws_plus.
    cbn [call].
    destruct (random_respond_array xs env
                [Obj m; Arr (words (trim (replace_all (text m) (command_re name))))]
                (put_lastIndex (command_regex name
                   (length (lastIndex (grow 2 (world s))))) 0 w) Hxs)
      as (i & x & Hx & _ & w' & Hr & Ho).
    exists x, w'. split; [now apply list_elem_of_lookup_2 in Hx|].
    split; [exact Hr | exact Ho].
  - intros i x env m w ds Hx Hd.
    rewrite (command_respond_call _ _ _ _ _ _ _ _
               (words (trim (replace_all (text m) (command_re name)))))
      by apply split_ws_plus.
    cbn [call].
    destruct (random_respond_array xs env
                [Obj m; Arr (words (trim (replace_all (text m) (command_re name))))]
                (put_lastIndex (command_regex name
                   (length (lastIndex (grow 2 (world s))))) 0 w) Hxs)
      as (j & y & Hy & Hj & w' & Hr & Ho).
    specialize (Hj i ds Hd). apply lookup_lt_Some in Hx as Hlt.
    rewrite Nat.mod_small in Hj by exact Hlt. subst j.
    assert (y = x) as -> by congruence. eauto.
Qed.

(** With the empty array [random] registers its command all the same, and
    every call of the responder throws a [TypeError] and sends nothing. *)
Theorem random_empty_array name d s :
  exists f s',
    random name (VData (Str d)) (VData (Arr [])) s = Ret tt s' /\
    features s' = features s ++ [f] /\
    forall env m w, exists w',
      call (respond f) env [Obj m] w = Throw TypeError w' /\
      outbox w' = outbox w.
Proof.
  unfold random. cbn [nullish]. rewrite command_three_args.
  eexists _, _. split; [reflexivity|]. split; [reflexivity|]. intros env m w.
  rewrite (command_respond_call _ _ _ _ _ _ _ _
               (words (trim (replace_all (text m) (command_re name)))))
      by apply split_ws_plus.
  cbn [call]. unfold random_respond, bind, random_index.
  destruct (dice _); eexists; split; reflexivity.
Qed.

(** [send(text, cb)] and [send(text, undefined, cb)] hand the request of
    [send(text)] to the transport and keep [cb]; with a picture the third
    argument is kept.  On the reply the callback is called once, without
    an error exactly when the status is 202, and without a callback the
    reply changes nothing. *)
Theorem send_reports t u (f : option exn -> M (World U) unit) (r : reply) w :
  let w1 := set_outbox (outbox w ++ [post_of t w]) w in
  send (Str t) Undefined w = Ret Undefined w1 /\
  send_request (Str t) (SCallback f) (SData Undefined) w = Ret (SCallback f) w1 /\
  send_request (Str t) (SData Undefined) (SCallback f) w = Ret (SCallback f) w1 /\
  (exists w2,
     send_request (Str t) (SData (Str u)) (SCallback f) w = Ret (SCallback f) w2 /\
     send (Str t) (Str u) w = Ret Undefined w2 /\
     map picture_url (outbox w2) = map picture_url (outbox w) ++ [Some u]) /\
  on_reply (SCallback f) r w1 = f (reply_error r) w1 /\
  (reply_error r = None <-> exists body, r = Answered 202 body) /\
  on_reply (SData Undefined) r w1 = Ret tt w1.
Proof.
  intros w1. split; [reflexivity|]. split; [reflexivity|]. split; [reflexivity|].
  split; [|split; [|split; [|reflexivity]]].
  - eexists. split; [reflexivity|]. split; [reflexivity|]. cbn [outbox set_outbox].
    now rewrite map_app.
  - destruct r as [err|sc body]; [reflexivity|]. cbn [on_reply truthy_arg reply_error].
    destruct (decide (sc = 202)) as [->|Hsc]; [reflexivity|].
    replace (Nat.eqb sc 202) with false by (symmetry; now apply Nat.eqb_neq).
    reflexivity.
  - destruct r as [err|sc body]; cbn [reply_error].
    + split; [discriminate | intros [b H]; discriminate H].
    + destruct (decide (sc = 202)) as [->|Hsc].
      * split; eauto.
      * split; [discriminate | intros [b H]; inversion H; contradiction].
Qed.

(** [random] with a supplier: every call of the responder of the command
    calls the supplier once, without arguments and with the pattern of the
    command at [lastIndex] 0.  A string that the supplier returns is sent,
    trimmed, in one request; any other value it returns ends the call in a
    [TypeError] with no request made; and what the supplier throws leaves
    the responder, no request made. *)
Theorem random_supplier_sends_result name d (g : Fn U) s :
  exists f x s',
    random name (VData (Str d)) (VFun g) s = Ret tt s' /\
    features s' = features s ++ [f] /\
    forall env m w,
      (forall t w1, g env [] (put_lastIndex x 0 w) = Ret (Str t) w1 ->
         call (respond f) env [Obj m] w =
           Ret Undefined (set_outbox (outbox w1 ++ [post_of t w1]) w1)) /\
      (forall v w1, g env [] (put_lastIndex x 0 w) = Ret v w1 ->
         (forall t, v <> Str t) ->
         call (respond f) env [Obj m] w = Throw TypeError w1) /\
      (forall e w1, g env [] (put_lastIndex x 0 w) = Throw e w1 ->
         call (respond f) env [Obj m] w = Throw e w1).
Proof.
  unfold random. cbn [nullish]. rewrite command_three_args.
  eexists _, (command_regex name _), _. split; [reflexivity|]. split; [reflexivity|].
  intros env m w.
  rewrite (command_respond_call _ _ _ _ _ _ _ _
             (words (trim (replace_all (text m) (command_re name)))))
    by apply split_ws_plus.
  cbn [call]. unfold random_respond, bind. cbn [call].
  split; [|split].
  - intros t w1 ->. reflexivity.
  - intros v w1 -> Hv. destruct v; try reflexivity. now contradiction (Hv s0).
  - intros e w1 ->. reflexivity.
Qed.

End Sending.

(** ** The further properties at work *)

(** [a.b] written in two ways. *)
Lemma quote_injective_witness :
  quote (js "a.b") = quote ("a" :: js ".b") /\ js "a.b" = "a" :: js ".b".
Proof.
  split; [reflexivity|].
  apply (quote_injective (js "a.b") ("a" :: js ".b")). reflexivity.
Defined.

(** [pattern('greets', 'hi', counts)] on the registry of a loaded module. *)
Lemma pattern_literal_check_witness :
  (exists f s',
     pattern (VData (Str (js "greets"))) (VData (Str (js "hi"))) (VFun counts)
             (initial 0) = Ret tt s' /\
     features s' = features (initial 0) ++ [f] /\
     desc f = js "greets" /\
     forall env m, exists b w',
       call (check f) env [Obj m] (world s') = Ret (Bool b) w' /\
       (b = true <-> occurs (js "hi") (text m))) /\
  pattern (VData (Str (js "hi"))) (VFun counts) (VData Undefined) (initial 0) =
  pattern (VData (Str [])) (VData (Str (js "hi"))) (VFun counts) (initial 0).
Proof.
  apply (pattern_literal_check (js "greets") (js "hi") (VFun counts) (initial 0)).
  reflexivity.
Defined.

Lemma literal_respond_copies_witness :
  exists f x s',
    pattern (VData (Str (js "greets"))) (VData (Str (js "hi"))) (VFun spy)
            (initial []) = Ret tt s' /\
    features s' = features (initial []) ++ [f] /\
    forall env m w, exists v,
      call (respond f) env [Obj m] w =
        call (VFun spy) env [Obj m; v] (put_lastIndex x 0 w) /\
      ((occurs (js "hi") (text m) /\ exists k, v = Arr (replicate (S k) (js "hi"))) \/
       (~ occurs (js "hi") (text m) /\ v = Null)).
Proof.
  apply (literal_respond_copies (js "greets") (js "hi") (VFun spy) (initial [])).
  reflexivity.
Defined.

(** On [hi, hi there] the responder of the literal [hi] receives two
    copies of it. *)
Example literal_hi_twice :
  let m := from_user "hi, hi there" in
  let s := after (pattern (VData (Str (js "hi"))) (VFun spy) (VData Undefined))
                 (initial []) in
  exists w, server m s = ([0], Ret tt w) /\
            user w = [Obj m; Arr [js "hi"; js "hi"]].
Proof. intros m s. eexists. split; reflexivity. Qed.

Lemma pattern_round_resets_witness :
  let m := from_user "hi" in
  let w := grow 1 (initial_world 0) in
  global hi_regex = true /\
  (forall w', pattern_check (VData (Rx hi_regex)) [] [Obj m] w = Ret (Bool false) w' ->
              get_lastIndex hi_regex w' = 0) /\
  (forall v w', pattern_respond (VData (Rx hi_regex)) (VFun counts) [] [Obj m] w =
                  Ret v w' ->
                get_lastIndex hi_regex w' = 0).
Proof.
  intros m w. split; [reflexivity|].
  apply (pattern_round_resets hi_regex (VFun counts) [] m w).
  - reflexivity.
  - intros env args w0 v w' H0 H. cbn in H. inversion H. exact H0.
Defined.

(** [command('roll', undefined, counts)], the call that [random] makes
    when its description is left out. *)
Lemma command_description_not_string_witness :
  exists s',
    command (js "roll") (VData Undefined) (VFun counts) (VData Undefined) (initial 0) =
      Throw TypeError s' /\
    features s' = features (initial 0).
Proof.
  apply (command_description_not_string (js "roll") (VData Undefined) (VFun counts)
           (VData Undefined) (initial 0)).
  - right. reflexivity.
  - intros d. discriminate.
Defined.

(** The first feature matches, the check of the second throws: the
    responder of the first is not called. *)
Lemma server_check_throws_witness :
  let m := from_user "hello" in
  let s := after counter_then_bad_check (initial 0) in
  server m s = ([], Throw (ErrorObj (js "bad check")) (world s)).
Proof.
  intros m s.
  apply (server_check_throws m s [counting_feature]
           {| desc := []; check := VFun check_throws; respond := VFun counts |}
           [] [true] (world s)).
  - reflexivity.
  - reflexivity.
  - vm_compute. run_checks.
  - reflexivity.
  - reflexivity.
Defined.

(** [feature('hello', counts)] *)
Lemma feature_description_then_callback_witness :
  let m := from_user "anything" in
  exists f s',
    feature (VData (Str (js "hello"))) (VFun counts) (VData Undefined) (initial 0) =
      Ret tt s' /\
    features s' = features (initial 0) ++ [f] /\
    desc f = [] /\ check f = VData (Str (js "hello")) /\ respond f = VFun counts /\
    (sender_type m = js "user" ->
     forall bs w1,
       checked (map desc (features s')) m (features (initial 0)) (world (initial 0)) bs w1 ->
       server m s' = ([], Throw TypeError w1)).
Proof.
  intros m.
  apply (feature_description_then_callback (js "hello") counts (initial 0) m).
  discriminate.
Defined.

(** The counting feature, registered three times. *)
Lemma server_calls_every_copy_witness :
  server (from_user "hello")
         {| features := replicate 3 counting_feature; world := initial_world 0 |} =
  ([0; 1; 2], Ret tt (set_user 30 (initial_world 0))).
Proof.
  apply (server_calls_every_copy counting_feature always counts
           (fun w => set_user (10 + user w) w) 3 (from_user "hello") (initial_world 0)).
  - reflexivity.
  - reflexivity.
  - reflexivity.
  - reflexivity.
  - reflexivity.
Defined.

(** Two plugins with new names. *)
Lemma use_installs_all_witness :
  let a := {| name := js "greet"; fn := 1 |} in
  let b := {| name := js "later"; fn := 2 |} in
  exists api',
    use [a; b] module_exports = Ret tt api' /\
    (forall q, q ∈ [a; b] -> api' !! name q = Some (Wrapper (fn q))) /\
    (forall k, k ∉ map name [a; b] -> api' !! k = module_exports !! k).
Proof.
  intros a b. apply (use_installs_all [a; b] module_exports).
  - reflexivity.
  - refine (bool_decide_unpack _ _). vm_compute. exact I.
  - refine (bool_decide_unpack _ _). vm_compute. exact I.
  - refine (bool_decide_unpack _ _). vm_compute. exact I.
  - intros q Hq. apply elem_of_cons in Hq as [->|Hq]; [reflexivity|].
    apply list_elem_of_singleton in Hq. subst q. reflexivity.
Defined.

(** [random('roll', 'Rolls.', ['x', 'y', 'z'])] *)
Lemma random_sends_candidate_witness :
  let xs := [js "x"; js "y"; js "z"] in
  exists f s',
    random (js "roll") (VData (Str (js "Rolls."))) (VData (Arr xs)) (initial 0) =
      Ret tt s' /\
    features s' = features (initial 0) ++ [f] /\
    (forall env m w, exists x w',
       x ∈ xs /\
       call (respond f) env [Obj m] w = Ret Undefined w' /\
       outbox w' = outbox w ++ [post_of x w]) /\
    (forall i x env m w ds, xs !! i = Some x -> dice w = i :: ds ->
       exists w',
         call (respond f) env [Obj m] w = Ret Undefined w' /\
         outbox w' = outbox w ++ [post_of x w]).
Proof.
  intros xs.
  apply (random_sends_candidate (js "roll") (js "Rolls.") xs (initial 0)).
  discriminate.
Defined.

(** With the outcome 4 of [Math.random], [/roll] sends [y]. *)
Example roll_sends_y :
  let s := after (random (js "roll") (VData (Str (js "Rolls.")))
                         (VData (Arr [js "x"; js "y"; js "z"]))) (initial 0) in
  let s1 := {| features := features s; world := set_dice [4] (world s) |} in
  exists w, server (from_user "/roll") s1 = ([0], Ret tt w) /\
            map post_text (outbox w) = [js "y"].
Proof. intros s s1. eexists. split; reflexivity. Qed.

(** [random('tip', 'Tips.', supplies)] with a supplier of [ hi ], of
    [undefined], and one that throws. *)
Lemma random_supplier_sends_result_witness :
  let m := from_user "/tip" in
  let run g :=
    let s := after (random (js "tip") (VData (Str (js "Tips."))) (VFun g)) (initial 0) in
    match server m s with
    | (called, Ret _ w) => (called, None, map post_text (outbox w), user w)
    | (called, Throw e w) => (called, Some e, map post_text (outbox w), user w)
    | (called, Unmodelled) => (called, None, [], 0)
    end in
  run (supplies (Str (js " hi "))) = ([0], None, [js "hi"], 1) /\
  run (supplies Undefined) = ([0], Some TypeError, [], 1) /\
  run check_throws = ([0], Some (ErrorObj (js "bad check")), [], 0) /\
  exists f x s',
    random (js "tip") (VData (Str (js "Tips."))) (VFun (supplies (Str (js " hi "))))
           (initial 0) = Ret tt s' /\
    features s' = features (initial 0) ++ [f] /\
    forall env m w,
      call (respond f) env [Obj m] w =
        Ret Undefined
          (set_outbox (outbox w ++ [post_of (js " hi ") w])
             (set_user (S (user w)) (put_lastIndex x 0 w))).
Proof.
  intros m run. split; [reflexivity|]. split; [reflexivity|]. split; [reflexivity|].
  destruct (random_supplier_sends_result (js "tip") (js "Tips.")
              (supplies (Str (js " hi "))) (initial 0))
    as (f & x & s' & Hreg & Hfs & Hcall).
  exists f, x, s'. split; [exact Hreg|]. split; [exact Hfs|].
  intros env m0 w. destruct (Hcall env m0 w) as [Hstr _].
  rewrite (Hstr (js " hi ") (set_user (S (user w)) (put_lastIndex x 0 w)) eq_refl).
  reflexivity.
Defined.

(** A failed request, an answer 202 and an answer 500, each reported to
    the callback. *)
Example send_reports_each :
  let w := initial_world [] in
  let run r :=
    match send_request (Str (js " hello ")) (SCallback keeps_error) (SData Undefined) w with
    | Ret cb w1 =>
        match on_reply cb r w1 with
        | Ret _ w2 => (map post_text (outbox w2), user w2)
        | _ => ([], [])
        end
    | _ => ([], [])
    end in
  run (Failed TypeError) = ([js "hello"], [Some TypeError]) /\
  run (Answered 202 (js "ok")) = ([js "hello"], [None]) /\
  run (Answered 500 (js "down")) = ([js "hello"], [Some (ErrorObj (js "down"))]).
Proof. repeat split; reflexivity. Qed.

(** [command('roll', 'Rolls.', counts)] *)
Lemma command_round_resets_witness :
  exists f x s',
    command_with (js "roll") (js "Rolls.") Default counts (initial 0) = Ret tt s' /\
    features s' = features (initial 0) ++ [f] /\
    get_lastIndex x (world s') = 0 /\
    forall env m w,
      (forall w', call (check f) env [Obj m] w = Ret (Bool false) w' ->
                  get_lastIndex x w' = 0) /\
      (forall v w', call (respond f) env [Obj m] w = Ret v w' ->
                    get_lastIndex x w' = 0).
Proof.
  destruct (command_round_resets (js "roll") (js "Rolls.") Default counts (initial 0))
    as (f & x & s' & Hreg & Hfs & H0 & Hround).
  exists f, x, s'. split; [exact Hreg|]. split; [exact Hfs|]. split; [exact H0|].
  intros env m w. destruct (Hround env m w) as [Hc Hr]. split; [exact Hc|].
  apply Hr. intros env' args w0 v w' Hw H. cbn in H. inversion H. exact Hw.
Defined.

(** A POST of a user on [feature(always, counts)]. *)
Lemma on_request_gate_witness :
  let m := from_user "hello" in
  let s := after (feature (VFun always) (VFun counts) (VData Undefined)) (initial 0) in
  0 ∈ fst (snd (on_request (js "POST") m s)) /\
  js "POST" = js "POST" /\ sender_type m = js "user" /\
  exists f, features s !! 0 = Some f /\ truthy_val (check f) = true.
Proof.
  intros m s.
  assert (0 ∈ fst (snd (on_request (js "POST") m s))) as H.
  { refine (bool_decide_unpack _ _). vm_compute. exact I. }
  split; [exact H|].
  exact (proj2 (proj2 (on_request_gate (js "POST") m s)) 0 H).
Defined.

(** A GET is answered with 400 and reaches no feature. *)
Example get_is_refused :
  let s := after (feature (VFun always) (VFun counts) (VData Undefined)) (initial 0) in
  on_request (js "GET") (from_user "hello") s =
    ({| status := 400; answer := js "Invalid request method!" |},
     ([], Ret tt (world s))).
Proof. reflexivity. Qed.
